(** * RepoTree: the repository-tree builder, renderer and search filter

    Shallow embedding of

    - [generateStructure] and [buildStructureString]
      (src/app/repo-structure.tsx, lines 94-123), and
    - [filterStructure]
      (src/app/generator/repo-tree-generator.tsx, lines 153-170).

    A JavaScript string is modelled as a Rocq [string], read as the
    UTF-8 encoding of the text.  The only characters the code inspects
    are ['/'] (in [split]) and whole names (in [has]/[get]/[set],
    [===] and [includes]); on well-formed text these agree byte-wise and
    code-unit-wise.

    A JavaScript [Map] keeps its keys unique and iterates in insertion
    order; [set] on a present key replaces the value in place.  It is
    modelled as an association list carrying exactly that discipline.

    The three functions are embedded twice.  The first embedding is
    pure: a nested map is a tree, and the in-place updates of the
    builder are written back along the path.  The second, in [Heap],
    keeps the objects in a store and follows the source statement by
    statement, with references, allocation and fuel.  The two are
    proved to agree ([walk_repr], [heap_render_correct],
    [heap_filter_correct]); the statements about what is built,
    rendered and kept are made on the first, those about returning on
    the second. *)

From Stdlib Require Import String Ascii List Bool Arith Lia.
Import ListNotations.
Open Scope string_scope.
Open Scope list_scope.

(* ================================================================== *)
(** ** JavaScript string primitives used by the code *)

Module JS.

(** The line feed written ["\n"] in the template literal. *)
Definition LF : string := String "010"%char EmptyString.

(** [s.split('/')]: cuts at every slash, keeps empty pieces and never
    returns an empty array. *)
Fixpoint split_slash (s : string) : list string :=
  match s with
  | EmptyString => [EmptyString]
  | String c rest =>
      if Ascii.eqb c "/"%char then EmptyString :: split_slash rest
      else match split_slash rest with
           | piece :: pieces => String c piece :: pieces
           | [] => [String c EmptyString]
           end
  end.

(** [s.includes(t)]: [t] occurs in [s] as a contiguous substring. *)
Fixpoint includes (s t : string) : bool :=
  String.prefix t s
  || match s with
     | EmptyString => false
     | String _ s' => includes s' t
     end.

(** [pieces.join('/')], the inverse of [split_slash]. *)
Fixpoint join_slash (pieces : list string) : string :=
  match pieces with
  | [] => EmptyString
  | [piece] => piece
  | piece :: rest => piece ++ String "/"%char (join_slash rest)
  end.

(** Lower-casing restricted to the ASCII letters.  It is the instance
    of [toLowerCase] used to run the filter on concrete ASCII names;
    the general theorems do not depend on it. *)
Definition ascii_lower (c : ascii) : ascii :=
  let n := nat_of_ascii c in
  if Nat.leb 65 n && Nat.leb n 90 then ascii_of_nat (n + 32) else c.

Fixpoint ascii_toLowerCase (s : string) : string :=
  match s with
  | EmptyString => EmptyString
  | String c s' => String (ascii_lower c) (ascii_toLowerCase s')
  end.

End JS.

(* ================================================================== *)
(** ** Data model *)

(** [interface TreeItem { path: string; type: string }] *)
Record TreeItem : Type := mkTreeItem { path : string; type : string }.

#[local] Set Warnings "-register-all".

(** [type DirectoryMap = Map<string, DirectoryMap | { type: 'file' }>].
    [File] is the object [{ type: 'file' }], [Dir] a nested [Map]. *)
Inductive Node : Type :=
| File : Node
| Dir : list (string * Node) -> Node.

Definition DirectoryMap : Type := list (string * Node).

(** Induction over nested maps: the property may be assumed of every
    value of a map. *)
Section NodeInduction.

Variable P : Node -> Prop.
Hypothesis P_File : P File.
Hypothesis P_Dir :
  forall map, (forall k v, In (k, v) map -> P v) -> P (Dir map).

Fixpoint Node_nested_ind (n : Node) : P n :=
  match n with
  | File => P_File
  | Dir map =>
      P_Dir map
        ((fix children (l : list (string * Node))
            : forall k v, In (k, v) l -> P v :=
            match l with
            | [] => fun _ _ (H : In _ []) => match H with end
            | (k0, v0) :: l' =>
                fun k v (H : In (k, v) ((k0, v0) :: l')) =>
                  match H with
                  | or_introl E =>
                      match E in _ = kv return P (snd kv) with
                      | eq_refl => Node_nested_ind v0
                      end
                  | or_intror H' => children l' k v H'
                  end
            end) map)
  end.

End NodeInduction.

(** The [Map] operations, for any type [V] of values. *)
Section MapOperations.

Context {V : Type}.

(** [map.get(key)] *)
Fixpoint Map_get (key : string) (map : list (string * V)) : option V :=
  match map with
  | [] => None
  | (k, v) :: rest => if String.eqb k key then Some v else Map_get key rest
  end.

(** [map.has(key)] *)
Definition Map_has (key : string) (map : list (string * V)) : bool :=
  match Map_get key map with Some _ => true | None => false end.

(** [map.set(key, value)]: a present key keeps its position and gets
    the new value, an absent key is appended. *)
Fixpoint Map_set (key : string) (value : V) (map : list (string * V))
  : list (string * V) :=
  match map with
  | [] => [(key, value)]
  | (k, v) :: rest =>
      if String.eqb k key then (key, value) :: rest
      else (k, v) :: Map_set key value rest
  end.

(** [map.keys()], in iteration order. *)
Definition Map_keys (map : list (string * V)) : list string :=
  List.map fst map.

(** [map.size] *)
Definition Map_size (map : list (string * V)) : nat := List.length map.

End MapOperations.

(** The node reached from [n] by following the names of [p]. *)
Fixpoint node_at (p : list string) (n : Node) : option Node :=
  match p with
  | [] => Some n
  | name :: rest =>
      match n with
      | File => None
      | Dir children =>
          match Map_get name children with
          | Some child => node_at rest child
          | None => None
          end
      end
  end.

Definition lookup_path (p : list string) (root : DirectoryMap) : option Node :=
  node_at p (Dir root).

Definition is_dir (o : option Node) : bool :=
  match o with Some (Dir _) => true | _ => false end.

(** Membership of a name in a list of names, as a boolean. *)
Fixpoint mem (x : string) (l : list string) : bool :=
  match l with
  | [] => false
  | y :: l' => String.eqb y x || mem x l'
  end.

Fixpoint distinct (l : list string) : bool :=
  match l with
  | [] => true
  | x :: l' => negb (mem x l') && distinct l'
  end.

(** The representation invariant of a JavaScript [Map]: at every level
    the keys are pairwise distinct. *)
Fixpoint Node_wf (n : Node) : bool :=
  match n with
  | File => true
  | Dir children =>
      distinct (List.map fst children)
      && forallb (fun kv => Node_wf (snd kv)) children
  end.

Definition Map_wf (map : DirectoryMap) : bool := Node_wf (Dir map).

(* ================================================================== *)
(** ** [generateStructure]: building the nested map *)

(** One entry's inner [parts.forEach].  [currentLevel] is the map the
    walk stands on; the recursive call is the next iteration, run on the
    child just fetched by [currentLevel.get(part)].  That child is
    mutated in place in the source, which the model writes back with
    [Map_set] at the same key (the key is present, so its position
    stays).  When the fetched child is not a [Map], every later
    iteration leaves through the [instanceof] guard and nothing more
    changes. *)
Fixpoint insertParts (blob : bool) (parts : list string)
    (currentLevel : DirectoryMap) : DirectoryMap :=
  match parts with
  | [] => currentLevel
  | part :: rest =>
      let is_last := match rest with [] => true | _ :: _ => false end in
      let level1 :=
        if Map_has part currentLevel then currentLevel
        else Map_set part (Dir []) currentLevel in
      let level2 :=
        if is_last && blob then Map_set part File level1 else level1 in
      match Map_get part level2 with
      | Some (Dir sub) => Map_set part (Dir (insertParts blob rest sub)) level2
      | _ => level2
      end
  end.

(** [item.type === 'blob'] *)
Definition is_blob (item : TreeItem) : bool := String.eqb (type item) "blob".

(** The body of the outer [tree.forEach]. *)
Definition insertItem (structureMap : DirectoryMap) (item : TreeItem)
  : DirectoryMap :=
  insertParts (is_blob item) (JS.split_slash (path item)) structureMap.

(** Lines 95-108: the map [generateStructure] hands to the renderer. *)
Definition generateStructure_map (tree : list TreeItem) : DirectoryMap :=
  fold_left insertItem tree [].

(* ================================================================== *)
(** ** [buildStructureString]: rendering *)

Definition branch : string := "├── ".
Definition indentUnit : string := "│   ".

(** The body of the [for ... of map.entries()] loop; [render] stands
    for the recursive call. *)
Definition renderEntry (render : Node -> string -> string) (prefix : string)
    (result : string) (kv : string * Node) : string :=
  let key := fst kv in
  let value := snd kv in
  if String.eqb key "type" then result
  else
    let result := (result ++ prefix ++ branch ++ key ++ JS.LF)%string in
    match value with
    | Dir _ => (result ++ render value (prefix ++ indentUnit))%string
    | File => result
    end.

(** The loop over the children of a node.  A [File] has no entries to
    loop over. *)
Fixpoint renderNode (n : Node) (prefix : string) : string :=
  match n with
  | File => EmptyString
  | Dir map => fold_left (renderEntry renderNode prefix) map EmptyString
  end.

Definition buildStructureString (map : DirectoryMap) (prefix : string)
  : string :=
  renderNode (Dir map) prefix.

(** The whole of [generateStructure]; [prefix] takes its default ['']. *)
Definition generateStructure (tree : list TreeItem) : string :=
  buildStructureString (generateStructure_map tree) EmptyString.

(* ================================================================== *)
(** ** [filterStructure]: the search filter *)

Section Filter.

(** [String.prototype.toLowerCase] is a built-in of the language with
    full Unicode case mapping; the filter is modelled over any such
    function. *)
Variable toLowerCase : string -> string.

(** [key.toLowerCase().includes(term.toLowerCase())] *)
Definition name_matches (key term : string) : bool :=
  JS.includes (toLowerCase key) (toLowerCase term).

(** The body of the [for ... of map.entries()] loop; [filter] stands
    for the recursive call. *)
Definition filterEntry (filter : Node -> string -> DirectoryMap)
    (term : string) (filteredMap : DirectoryMap) (kv : string * Node)
  : DirectoryMap :=
  let key := fst kv in
  let value := snd kv in
  match value with
  | File =>
      if name_matches key term
      then Map_set key value filteredMap
      else filteredMap
  | Dir _ =>
      let filteredSubMap := filter value term in
      if Nat.ltb 0 (Map_size filteredSubMap) || name_matches key term
      then Map_set key (Dir filteredSubMap) filteredMap
      else filteredMap
  end.

Fixpoint filterNode (n : Node) (term : string) : DirectoryMap :=
  match n with
  | File => []
  | Dir map => fold_left (filterEntry filterNode term) map []
  end.

Definition filterStructure (map : DirectoryMap) (term : string)
  : DirectoryMap :=
  filterNode (Dir map) term.

End Filter.

(* ================================================================== *)
(** ** The same three functions on the object store

    The source builds its maps by mutation: [new Map()] creates an
    object with an identity of its own, [currentLevel] is a reference to
    one of them, and [set] changes the object referred to.  Here the
    objects live in a store, a [Map] value is the address of its object,
    and the recursive functions run on fuel, so that a store with a
    cycle is a legitimate input on which they do not return. *)

Module Heap.

(** What a key of a [Map] can hold: a [{ type: 'file' }] object or a
    reference to a [Map]. *)
Inductive value : Type :=
| VFile : value
| VMap : nat -> value.

Definition object : Type := list (string * value).
Definition store : Type := list object.

Definition deref (s : store) (a : nat) : object := nth a s [].

Fixpoint update (s : store) (a : nat) (o : object) : store :=
  match s, a with
  | [], _ => []
  | _ :: s', 0 => o :: s'
  | x :: s', S a' => x :: update s' a' o
  end.

(** [new Map()] *)
Definition alloc (s : store) : store * nat := (s ++ [[]], List.length s).

(** [m.set(key, v)] for the map [m] at address [a]. *)
Definition set_at (s : store) (a : nat) (key : string) (v : value) : store :=
  update s a (Map_set key v (deref s a)).

(** The inner [parts.forEach]; [currentLevel] is [None] when it holds
    [undefined].  An iteration that finds [currentLevel] not to be a
    [Map] returns at once, and so do all the later ones. *)
Fixpoint walk (blob : bool) (parts : list string) (s : store)
    (currentLevel : option value) : store :=
  match parts with
  | [] => s
  | part :: rest =>
      match currentLevel with
      | Some (VMap a) =>
          let is_last := match rest with [] => true | _ :: _ => false end in
          let s1 :=
            if Map_has part (deref s a) then s
            else let (s', fresh) := alloc s in
                 set_at s' a part (VMap fresh) in
          let s2 := if is_last && blob then set_at s1 a part VFile else s1 in
          walk blob rest s2 (Map_get part (deref s2 a))
      | _ => walk blob rest s currentLevel
      end
  end.

(** [structureMap] is the first object created. *)
Definition structureMap : nat := 0.

Definition insertItem (s : store) (item : TreeItem) : store :=
  walk (is_blob item) (JS.split_slash (path item)) s (Some (VMap structureMap)).

(** Lines 95-108, starting from the store that holds the empty
    [structureMap] alone. *)
Definition generateStructure_store (tree : list TreeItem) : store :=
  fold_left insertItem tree [[]].

Definition renderEntry (render : nat -> string -> option string)
    (prefix : string) (result : option string) (kv : string * value)
  : option string :=
  match result with
  | None => None
  | Some result =>
      let key := fst kv in
      let value := snd kv in
      if String.eqb key "type" then Some result
      else
        let result := (result ++ prefix ++ branch ++ key ++ JS.LF)%string in
        match value with
        | VMap b =>
            match render b (prefix ++ indentUnit)%string with
            | Some sub => Some (result ++ sub)%string
            | None => None
            end
        | VFile => Some result
        end
  end.

(** [buildStructureString] on the map at address [map]; [None] when
    the fuel does not cover the depth of the recursion. *)
Fixpoint buildStructureString (fuel : nat) (s : store) (map : nat)
    (prefix : string) : option string :=
  match fuel with
  | 0 => None
  | S fuel' =>
      fold_left (renderEntry (buildStructureString fuel' s) prefix)
        (deref s map) (Some EmptyString)
  end.

Section Filter.

Variable toLowerCase : string -> string.

Definition filterEntry (filter : store -> nat -> option (store * nat))
    (term : string) (filteredMap : nat) (acc : option store)
    (kv : string * value) : option store :=
  match acc with
  | None => None
  | Some s =>
      let key := fst kv in
      let value := snd kv in
      match value with
      | VFile =>
          if name_matches toLowerCase key term
          then Some (set_at s filteredMap key value)
          else Some s
      | VMap b =>
          match filter s b with
          | None => None
          | Some (s', filteredSubMap) =>
              if Nat.ltb 0 (Map_size (deref s' filteredSubMap))
                 || name_matches toLowerCase key term
              then Some (set_at s' filteredMap key (VMap filteredSubMap))
              else Some s'
          end
      end
  end.

(** [filterStructure] on the map at address [map]: the store after
    the call and the address of the new [filteredMap].  The loop reads
    the entries of [map] as they are when it starts; the calls it makes
    change new objects only ([heap_filter_correct]), so that this is
    what the live iterator of the source sees. *)
Fixpoint filterStructure (fuel : nat) (s : store) (map : nat)
    (term : string) : option (store * nat) :=
  match fuel with
  | 0 => None
  | S fuel' =>
      let (s0, filteredMap) := alloc s in
      match
        fold_left
          (filterEntry (fun s b => filterStructure fuel' s b term)
             term filteredMap)
          (deref s map) (Some s0)
      with
      | Some s' => Some (s', filteredMap)
      | None => None
      end
  end.

End Filter.

Definition disjoint (l1 l2 : list nat) : Prop :=
  forall c, In c l1 -> ~ In c l2.

(** The store holds the tree [n] at the value [v]: the objects used are
    those at the addresses of the footprint, each used once.  A store
    with a cycle or with an object reachable along two paths holds no
    tree in this sense. *)
Inductive repr (s : store) : value -> Node -> list nat -> Prop :=
| repr_file : repr s VFile File []
| repr_map : forall a m fp,
    a < List.length s ->
    ~ In a fp ->
    repr_entries s (deref s a) m fp ->
    repr s (VMap a) (Dir m) (a :: fp)
with repr_entries (s : store) : object -> DirectoryMap -> list nat -> Prop :=
| repr_nil : repr_entries s [] [] []
| repr_cons : forall key v n fp1 o m fp2,
    repr s v n fp1 ->
    repr_entries s o m fp2 ->
    disjoint fp1 fp2 ->
    repr_entries s ((key, v) :: o) ((key, n) :: m) (fp1 ++ fp2).

Scheme repr_mut := Minimality for repr Sort Prop
  with repr_entries_mut := Minimality for repr_entries Sort Prop.

Combined Scheme repr_mutual from repr_mut, repr_entries_mut.

End Heap.

(** The store [s'] is [s] with objects added or changed beyond those of
    [s]. *)
Definition extends (s s' : Heap.store) : Prop :=
  List.length s <= List.length s'
  /\ forall c, c < List.length s -> Heap.deref s' c = Heap.deref s c.

(** What a call of the filter on the store [s], for a map holding the
    tree [m], is to deliver: the new map holds the tree the pure filter
    computes, in objects created by the call, and the objects of the
    caller are as they were. *)
Definition filtered_in (toLowerCase : string -> string) (term : string)
    (m : DirectoryMap) (s s' : Heap.store) (filteredMap : nat)
    (fp : list nat) : Prop :=
  Heap.repr s' (Heap.VMap filteredMap)
    (Dir (filterStructure toLowerCase m term)) fp
  /\ extends s s'
  /\ forall c, In c fp -> List.length s <= c.

(* ================================================================== *)
(** ** Vocabulary of the statements *)

(** Entries as the GitHub tree API sends them. *)
Definition blob_entry (p : string) : TreeItem := mkTreeItem p "blob".
Definition tree_entry (p : string) : TreeItem := mkTreeItem p "tree".

(** The segments of an item's path. *)
Definition parts_of (item : TreeItem) : list string :=
  JS.split_slash (path item).

(** [q] is a proper prefix of the segment list [p]: at least one more
    segment follows it. *)
Definition proper_prefix (q p : list string) : Prop :=
  exists name rest, p = q ++ name :: rest.

(** The segment of [parts] that follows the prefix [q], when [q] is a
    proper prefix of [parts]. *)
Fixpoint next_name (q parts : list string) : option string :=
  match q, parts with
  | [], name :: _ => Some name
  | a :: q', b :: parts' =>
      if String.eqb a b then next_name q' parts' else None
  | _, [] => None
  end.

(** The child names the input asks for below the directory [q], in input
    order and with repetitions. *)
Definition names_below (q : list string) (tree : list TreeItem)
  : list string :=
  flat_map (fun item =>
              match next_name q (parts_of item) with
              | Some name => [name]
              | None => []
              end) tree.

(** Each name kept at its first occurrence only. *)
Fixpoint first_occurrences (l : list string) : list string :=
  match l with
  | [] => []
  | x :: l' =>
      x :: filter (fun y => negb (String.eqb y x)) (first_occurrences l')
  end.

(** Concatenation of a list of texts, in list order. *)
Definition concat_all (l : list string) : string :=
  fold_right String.append EmptyString l.

(** The text one child contributes to the rendering of its parent. *)
Definition child_block (prefix : string) (kv : string * Node) : string :=
  if String.eqb (fst kv) "type" then EmptyString
  else
    (prefix ++ branch ++ fst kv ++ JS.LF
     ++ match snd kv with
        | Dir sub => buildStructureString sub (prefix ++ indentUnit)
        | File => EmptyString
        end)%string.

(** What the filter keeps of one entry of a map: nothing, or the entry
    with its value filtered. *)
Definition keep (toLowerCase : string -> string) (term : string)
    (kv : string * Node) : list (string * Node) :=
  match snd kv with
  | File => if name_matches toLowerCase (fst kv) term then [kv] else []
  | Dir sub =>
      let filteredSubMap := filterStructure toLowerCase sub term in
      if Nat.ltb 0 (Map_size filteredSubMap)
         || name_matches toLowerCase (fst kv) term
      then [(fst kv, Dir filteredSubMap)]
      else []
  end.

(* ------------------------------------------------------------------ *)
(** *** An entry acting on a node

    [act b parts n] is what the walk of an entry with remaining segments
    [parts] makes of the node [n] it is about to enter: on the last
    segment of a blob the node becomes the file object, a file met on
    the way stops the walk, and a directory receives the next segment.
    [insertParts_cons] and [act_Dir] relate it to [insertParts]. *)

Definition or_new_map (o : option Node) : Node :=
  match o with Some n => n | None => Dir [] end.

Fixpoint act (b : bool) (parts : list string) (n : Node) : Node :=
  match parts with
  | [] => if b then File else n
  | name :: rest =>
      match n with
      | File => File
      | Dir m => Dir (Map_set name (act b rest (or_new_map (Map_get name m))) m)
      end
  end.

(** An entry reduced to what the walk reads: is it a blob, and its
    remaining segments. *)
Definition entry : Type := (bool * list string)%type.

Definition entry_of (item : TreeItem) : entry := (is_blob item, parts_of item).

Definition run (es : list entry) (n : Node) : Node :=
  fold_left (fun n e => act (fst e) (snd e) n) es n.

(** A blob with no segment left: it turns the node it acts on into a
    file. *)
Definition root_blob (e : entry) : bool :=
  fst e && match snd e with [] => true | _ :: _ => false end.

(** The entries that go through the child [name], with that segment
    taken off. *)
Definition below (name : string) (es : list entry) : list entry :=
  flat_map (fun e =>
              match snd e with
              | k :: rest => if String.eqb k name then [(fst e, rest)] else []
              | [] => []
              end) es.

Fixpoint below_path (q : list string) (es : list entry) : list entry :=
  match q with
  | [] => es
  | name :: q' => below_path q' (below name es)
  end.

(** The first segments of the entries, in order. *)
Definition first_names (es : list entry) : list string :=
  flat_map (fun e => match snd e with k :: _ => [k] | [] => [] end) es.

(** The keys of a map after [set] of the key [k]. *)
Definition add_key (keys : list string) (k : string) : list string :=
  if mem k keys then keys else keys ++ [k].

(** The keys of the directory at [q] below [n], if there is one. *)
Definition keys_at (q : list string) (n : Node) : list string :=
  match node_at q n with Some (Dir c) => Map_keys c | _ => [] end.

(* ------------------------------------------------------------------ *)
(** *** Three sentences of the specification, read literally *)

(** "Every ancestor directory implied by any entry's path exists in the
    output": every proper prefix of every path is a directory of the
    result. *)
Definition every_ancestor_is_a_directory (tree : list TreeItem) : Prop :=
  forall item q,
    In item tree ->
    proper_prefix q (parts_of item) ->
    is_dir (lookup_path q (generateStructure_map tree)) = true.

(** "On the final segment a file leaves a Leaf, anything else a
    Directory", for one more entry [item] after [tree], the walk having
    reached the directory [level] that is to hold the final segment. *)
Definition final_segment_gets_the_kind (tree : list TreeItem)
    (item : TreeItem) : Prop :=
  forall pre last level,
    parts_of item = pre ++ [last] ->
    lookup_path pre (generateStructure_map tree) = Some (Dir level) ->
    let after := generateStructure_map (tree ++ [item]) in
    if is_blob item
    then lookup_path (pre ++ [last]) after = Some File
    else is_dir (lookup_path (pre ++ [last]) after) = true.

(** "The filter removes a leaf iff neither its own name nor the name of
    any ancestor directory contains the term", for the leaf at path [p],
    whose segments are those names. *)
Definition removed_iff_no_name_on_path_matches
    (toLowerCase : string -> string) (tree : list TreeItem) (term : string)
    (p : list string) : Prop :=
  lookup_path p (generateStructure_map tree) = Some File ->
  (lookup_path p (filterStructure toLowerCase (generateStructure_map tree) term)
   <> Some File
   <-> forallb (fun name => negb (name_matches toLowerCase name term)) p = true).

(* ================================================================== *)
(** ** [validateUrl] and the repository named by a URL

    The pattern of [validateUrl] uses literals, character classes,
    sequence, [+] and [?] only, without flags; [test] with [^] and [$]
    asks whether the whole string belongs to the language of the
    pattern.  Patterns are kept as syntax, with their language and an
    executable matcher by derivatives. *)

Module Regex.

Inductive regex : Type :=
| Void : regex
| Eps : regex
| Class : (ascii -> bool) -> regex
| Seq : regex -> regex -> regex
| Alt : regex -> regex -> regex
| Star : regex -> regex.

(** [c], [r+], [r?] and a literal text. *)
Definition Chr (c : ascii) : regex := Class (Ascii.eqb c).
Definition Plus (r : regex) : regex := Seq r (Star r).
Definition Opt (r : regex) : regex := Alt r Eps.

Fixpoint Str (s : string) : regex :=
  match s with
  | EmptyString => Eps
  | String c s' => Seq (Chr c) (Str s')
  end.

(** The language of a pattern. *)
Inductive Matches : regex -> string -> Prop :=
| MEps : Matches Eps EmptyString
| MClass : forall p c, p c = true -> Matches (Class p) (String c EmptyString)
| MSeq : forall r1 r2 s1 s2,
    Matches r1 s1 -> Matches r2 s2 -> Matches (Seq r1 r2) (s1 ++ s2)
| MAltL : forall r1 r2 s, Matches r1 s -> Matches (Alt r1 r2) s
| MAltR : forall r1 r2 s, Matches r2 s -> Matches (Alt r1 r2) s
| MStar0 : forall r, Matches (Star r) EmptyString
| MStarS : forall r s1 s2,
    Matches r s1 -> Matches (Star r) s2 -> Matches (Star r) (s1 ++ s2).

(** Does the pattern accept the empty string? *)
Fixpoint nullable (r : regex) : bool :=
  match r with
  | Void => false
  | Eps => true
  | Class _ => false
  | Seq r1 r2 => nullable r1 && nullable r2
  | Alt r1 r2 => nullable r1 || nullable r2
  | Star _ => true
  end.

(** What is left to match after the character [c]. *)
Fixpoint deriv (c : ascii) (r : regex) : regex :=
  match r with
  | Void => Void
  | Eps => Void
  | Class p => if p c then Eps else Void
  | Seq r1 r2 =>
      if nullable r1
      then Alt (Seq (deriv c r1) r2) (deriv c r2)
      else Seq (deriv c r1) r2
  | Alt r1 r2 => Alt (deriv c r1) (deriv c r2)
  | Star r1 => Seq (deriv c r1) (Star r1)
  end.

(** [pattern.test(s)] for a pattern anchored at both ends. *)
Fixpoint test (r : regex) (s : string) : bool :=
  match s with
  | EmptyString => nullable r
  | String c s' => test (deriv c r) s'
  end.

End Regex.

(** The classes [\w], [[\w-]] and [[\w.-]]. *)
Definition word_char (c : ascii) : bool :=
  let n := nat_of_ascii c in
  (Nat.leb 65 n && Nat.leb n 90)
  || (Nat.leb 97 n && Nat.leb n 122)
  || (Nat.leb 48 n && Nat.leb n 57)
  || Nat.eqb n 95.

Definition word_or_dash (c : ascii) : bool :=
  word_char c || Ascii.eqb c "-".

Definition word_dot_dash (c : ascii) : bool :=
  word_char c || Ascii.eqb c "." || Ascii.eqb c "-".

(** [/^https?:\/\/github\.com\/[\w-]+\/[\w.-]+\/?$/] *)
Definition githubUrlPattern : Regex.regex :=
  Regex.Seq (Regex.Str "http")
    (Regex.Seq (Regex.Opt (Regex.Chr "s"))
       (Regex.Seq (Regex.Str "://github.com/")
          (Regex.Seq (Regex.Plus (Regex.Class word_or_dash))
             (Regex.Seq (Regex.Chr "/")
                (Regex.Seq (Regex.Plus (Regex.Class word_dot_dash))
                   (Regex.Opt (Regex.Chr "/"))))))).

Definition validateUrl (url : string) : bool :=
  Regex.test githubUrlPattern url.

(** [arr.slice(-2)]: the last two elements, or all of them when there
    are fewer. *)
Definition slice_last2 (arr : list string) : list string :=
  skipn (List.length arr - 2) arr.

(** [const [owner, repo] = repoUrl.split('/').slice(-2)]; a missing
    element is [undefined], here [None]. *)
Definition owner_repo (repoUrl : string) : option string * option string :=
  let last2 := slice_last2 (JS.split_slash repoUrl) in
  (nth_error last2 0, nth_error last2 1).

(** Every character of the text is in the class. *)
Fixpoint all_chars (p : ascii -> bool) (s : string) : bool :=
  match s with
  | EmptyString => true
  | String c s' => p c && all_chars p s'
  end.

(** The shapes the pattern asks of the two path segments. *)
Definition owner_name_ok (owner : string) : Prop :=
  owner <> EmptyString /\ all_chars word_or_dash owner = true.

Definition repo_name_ok (repo : string) : Prop :=
  repo <> EmptyString /\ all_chars word_dot_dash repo = true.

Definition scheme_ok (scheme : string) : Prop :=
  scheme = "http" \/ scheme = "https".

Definition github_url (scheme owner repo : string) : string :=
  scheme ++ "://github.com/" ++ owner ++ "/" ++ repo.

(* ================================================================== *)
(** ** The lines of a rendering, views and downloads *)

(** The nodes the renderer writes a line for, with their depth, in the
    order of the lines: a child named [type] is passed over with all
    below it. *)
Definition visibleEntry (visible : Node -> nat -> list (nat * string))
    (depth : nat) (kv : string * Node) : list (nat * string) :=
  if String.eqb (fst kv) "type" then []
  else (depth, fst kv)
         :: match snd kv with
            | Dir _ => visible (snd kv) (S depth)
            | File => []
            end.

Fixpoint visibleNode (n : Node) (depth : nat) : list (nat * string) :=
  match n with
  | File => []
  | Dir map => flat_map (visibleEntry visibleNode depth) map
  end.

Definition visible_nodes (map : DirectoryMap) : list (nat * string) :=
  visibleNode (Dir map) 0.

(** [depth] times the indentation unit. *)
Fixpoint indent (depth : nat) : string :=
  match depth with
  | 0 => EmptyString
  | S d => indent d ++ indentUnit
  end.

(** The line of a node. *)
Definition line_of (prefix : string) (node : nat * string) : string :=
  prefix ++ indent (fst node) ++ branch ++ snd node ++ JS.LF.

(** One list is the other with some elements left out. *)
Inductive subseq {A : Type} : list A -> list A -> Prop :=
| subseq_nil : subseq [] []
| subseq_skip : forall x l1 l2, subseq l1 l2 -> subseq l1 (x :: l2)
| subseq_keep : forall x l1 l2, subseq l1 l2 -> subseq (x :: l1) (x :: l2).

(** Truthiness of a string: the empty string alone is falsy. *)
Definition truthy (s : string) : bool := negb (String.eqb s EmptyString).

(** The double quote. *)
Definition DQ : string := String "034"%char EmptyString.

(** The template of the Markdown download, the same in both files. *)
Definition markdownContent (structure : string) : string :=
  "# Directory Structure" ++ JS.LF ++ JS.LF ++ "```" ++ JS.LF
  ++ structure ++ "```".

Definition noStructureMessage : string :=
  "No structure generated yet. Enter a GitHub URL and click Generate.".

Definition noResultsMessage (searchTerm : string) : string :=
  "No files or folders found matching " ++ DQ ++ searchTerm ++ DQ ++ "."
  ++ JS.LF ++ JS.LF ++ "Tips:" ++ JS.LF ++ "- Check the spelling" ++ JS.LF
  ++ "- Try searching for partial names" ++ JS.LF
  ++ "- Include file extensions (.js, .ts, .json)".

Section Views.

Variable toLowerCase : string -> string.

(** [buildStructureString] is imported by the generator page from a
    module that is not at hand; the views are modelled over any
    rendering function. *)
Variable render : DirectoryMap -> string.

(** What the ASCII view of the generator page shows. *)
Definition asciiView (structureMap : DirectoryMap) (searchTerm : string)
  : string :=
  let filteredStructureMap :=
    filterStructure toLowerCase structureMap searchTerm in
  let filteredStructure := render filteredStructureMap in
  if truthy filteredStructure then filteredStructure
  else if truthy searchTerm then noResultsMessage searchTerm
       else noStructureMessage.

(** What the interactive view shows: the filtered tree, or a message. *)
Definition interactiveView (structureMap : DirectoryMap)
    (searchTerm : string) : DirectoryMap + string :=
  let filteredStructureMap :=
    filterStructure toLowerCase structureMap searchTerm in
  if Nat.ltb 0 (Map_size filteredStructureMap) then inl filteredStructureMap
  else inr (if truthy searchTerm then noResultsMessage searchTerm
            else noStructureMessage).

(** Does the name of some node of the tree contain the term? *)
Definition matchEntry (any : Node -> bool) (term : string)
    (kv : string * Node) : bool :=
  name_matches toLowerCase (fst kv) term
  || match snd kv with
     | Dir _ => any (snd kv)
     | File => false
     end.

Fixpoint anyNameMatches (term : string) (n : Node) : bool :=
  match n with
  | File => false
  | Dir map => existsb (matchEntry (anyNameMatches term) term) map
  end.

Definition any_name_matches (map : DirectoryMap) (term : string) : bool :=
  anyNameMatches term (Dir map).

End Views.

(** The number of path segments of a listing. *)
Definition segments (tree : list TreeItem) : nat :=
  list_sum (List.map (fun item => List.length (parts_of item)) tree).

(* ================================================================== *)
(** * Properties *)

(** ** The string primitives *)

Section StringFacts.

Lemma prefix_spec t : forall s,
  String.prefix t s = true <-> exists b, s = (t ++ b)%string.
Proof.
  induction t as [|c t IH]; intros s.
  - split; intros _; [now exists s|now destruct s].
  - destruct s as [|d s]; simpl; [split; [discriminate|intros [b [=]]]|].
    destruct (Ascii.ascii_dec c d) as [<-|Hne].
    + rewrite IH. split; intros [b H]; exists b; congruence.
    + split; [discriminate|]. intros [b [= -> _]]. congruence.
Qed.

(** [includes] is the substring test. *)
Lemma includes_spec s t :
  JS.includes s t = true <-> exists a b, s = (a ++ t ++ b)%string.
Proof.
  induction s as [|c s IH]; cbn [JS.includes]; rewrite orb_true_iff, prefix_spec.
  - split.
    + intros [[b H]|H]; [|discriminate]. now exists EmptyString, b.
    + intros (a & b & H). left. destruct a; [eauto|discriminate].
  - rewrite IH. split.
    + intros [[b H]|(a & b & H)].
      * now exists EmptyString, b.
      * exists (String c a), b. simpl. now rewrite H.
    + intros ([|d a] & b & H); [left; eauto|].
      right. injection H as _ H. eauto.
Qed.

Lemma split_slash_nonempty s : JS.split_slash s <> [].
Proof.
  destruct s as [|c s]; simpl; [discriminate|].
  destruct (Ascii.eqb c "/"); [discriminate|].
  destruct (JS.split_slash s); discriminate.
Qed.

(** [split_slash] loses nothing, and no piece holds a slash. *)
Lemma join_split_slash s : JS.join_slash (JS.split_slash s) = s.
Proof.
  induction s as [|c s IH]; [reflexivity|]. cbn [JS.split_slash].
  pose proof (split_slash_nonempty s) as Hne.
  destruct (JS.split_slash s) as [|piece rest]; [congruence|].
  destruct (Ascii.eqb c "/") eqn:E.
  - apply Ascii.eqb_eq in E. subst c.
    change (JS.join_slash (EmptyString :: piece :: rest))
      with (String "/" (JS.join_slash (piece :: rest))).
    now rewrite IH.
  - destruct rest as [|piece' rest]; simpl in *; now rewrite IH.
Qed.

Lemma split_slash_pieces s :
  Forall (fun piece => JS.includes piece "/" = false) (JS.split_slash s).
Proof.
  induction s as [|c s IH]; cbn [JS.split_slash].
  - repeat constructor.
  - pose proof (split_slash_nonempty s) as Hne.
    destruct (Ascii.eqb c "/") eqn:E; [constructor; [reflexivity|exact IH]|].
    destruct (JS.split_slash s) as [|piece rest]; [congruence|].
    inversion IH as [|? ? Hp Hrest]; subst. constructor; [|assumption].
    cbn [JS.includes String.prefix]. rewrite Hp.
    destruct (Ascii.ascii_dec "/" c) as [<-|_]; [discriminate E|].
    reflexivity.
Qed.

End StringFacts.

(* ------------------------------------------------------------------ *)
(** ** The [Map] operations *)

Section MapFacts.

Context {V : Type}.
Implicit Types (m : list (string * V)) (k : string) (v : V).

Lemma Map_get_set_same k v m : Map_get k (Map_set k v m) = Some v.
Proof.
  induction m as [|[k' v'] m IH]; simpl.
  - now rewrite String.eqb_refl.
  - destruct (String.eqb k' k) eqn:E; simpl.
    + now rewrite String.eqb_refl.
    + now rewrite E.
Qed.

Lemma Map_get_set_other k k' v m :
  k' <> k -> Map_get k' (Map_set k v m) = Map_get k' m.
Proof.
  intros Hne. induction m as [|[k0 v0] m IH]; simpl.
  - destruct (String.eqb k k') eqn:E; [|reflexivity].
    apply String.eqb_eq in E. congruence.
  - destruct (String.eqb k0 k) eqn:E; simpl.
    + apply String.eqb_eq in E. subst k0.
      destruct (String.eqb k k') eqn:E'; [|reflexivity].
      apply String.eqb_eq in E'. congruence.
    + now rewrite IH.
Qed.

Lemma Map_set_set k v v' m : Map_set k v (Map_set k v' m) = Map_set k v m.
Proof.
  induction m as [|[k0 v0] m IH]; simpl.
  - now rewrite String.eqb_refl.
  - destruct (String.eqb k0 k) eqn:E; simpl.
    + now rewrite String.eqb_refl.
    + now rewrite E, IH.
Qed.

Lemma Map_set_same k v m : Map_get k m = Some v -> Map_set k v m = m.
Proof.
  induction m as [|[k0 v0] m IH]; simpl; [discriminate|].
  destruct (String.eqb k0 k) eqn:E.
  - apply String.eqb_eq in E. now intros [= ->]; subst.
  - intros H. now rewrite IH.
Qed.

Lemma mem_In x l : mem x l = true <-> In x l.
Proof.
  induction l as [|y l IH]; simpl; [easy|].
  rewrite orb_true_iff, String.eqb_eq, IH. tauto.
Qed.

Lemma mem_app x l1 l2 : mem x (l1 ++ l2) = mem x l1 || mem x l2.
Proof.
  induction l1 as [|y l1 IH]; simpl; [reflexivity|].
  now rewrite IH, orb_assoc.
Qed.

Lemma Map_get_None_mem k m : Map_get k m = None <-> mem k (Map_keys m) = false.
Proof.
  induction m as [|[k0 v0] m IH]; simpl; [easy|].
  destruct (String.eqb k0 k); simpl; [easy|exact IH].
Qed.

(** [set] keeps the position of a present key and appends an absent
    one. *)
Lemma Map_keys_set k v m : Map_keys (Map_set k v m) = add_key (Map_keys m) k.
Proof.
  unfold add_key. induction m as [|[k0 v0] m IH]; simpl; [reflexivity|].
  destruct (String.eqb k0 k) eqn:E; simpl.
  - apply String.eqb_eq in E. now subst.
  - rewrite IH. now destruct (mem k (Map_keys m)).
Qed.

Lemma Map_set_absent k v m :
  mem k (Map_keys m) = false -> Map_set k v m = m ++ [(k, v)].
Proof.
  induction m as [|[k0 v0] m IH]; simpl; [reflexivity|].
  destruct (String.eqb k0 k); simpl; [discriminate|].
  intros H. now rewrite IH.
Qed.

Lemma distinct_add_key l k : distinct l = true -> distinct (add_key l k) = true.
Proof.
  unfold add_key. destruct (mem k l) eqn:E; [easy|]. intros Hd.
  induction l as [|x l IH]; simpl in *; [reflexivity|].
  apply andb_true_iff in Hd as [Hx Hd].
  apply orb_false_iff in E as [Exk E].
  rewrite mem_app, IH by assumption. simpl.
  apply negb_true_iff in Hx. rewrite Hx. simpl.
  rewrite String.eqb_sym, Exk. reflexivity.
Qed.

Lemma Map_get_In k v m : Map_get k m = Some v -> In (k, v) m.
Proof.
  induction m as [|[k0 v0] m IH]; simpl; [discriminate|].
  destruct (String.eqb k0 k) eqn:E.
  - apply String.eqb_eq in E. intros [= ->]. subst. now left.
  - intros H. right. auto.
Qed.

Lemma In_Map_set k v k' v' m :
  In (k', v') (Map_set k v m) -> (k', v') = (k, v) \/ In (k', v') m.
Proof.
  induction m as [|[k0 v0] m IH]; simpl.
  - intros [H|[]]. now left.
  - destruct (String.eqb k0 k); simpl; intros [H|H]; auto.
    destruct (IH H); auto.
Qed.

End MapFacts.

(* ------------------------------------------------------------------ *)
(** ** The walk of one entry *)

Section Walk.

Implicit Types (m : DirectoryMap) (n : Node) (b : bool).

(** One iteration of [parts.forEach] is a single [set] at [part]. *)
Lemma insertParts_cons b part rest m :
  insertParts b (part :: rest) m
  = Map_set part (act b rest (or_new_map (Map_get part m))) m.
Proof.
  revert part m. induction rest as [|r rest' IH]; intros part m.
  - cbn [insertParts act]. unfold Map_has.
    destruct (Map_get part m) as [[|sub]|] eqn:G, b; cbn [andb or_new_map];
      rewrite ?Map_get_set_same, ?G, ?Map_set_set; try reflexivity;
      symmetry; now apply Map_set_same.
  - assert (Hact : forall sub,
               act b (r :: rest') (Dir sub) = Dir (insertParts b (r :: rest') sub)).
    { intros sub. cbn [act]. now rewrite IH. }
    cbn [insertParts andb]. unfold Map_has.
    destruct (Map_get part m) as [[|sub]|] eqn:G; cbn [or_new_map].
    + rewrite G. symmetry. now apply Map_set_same.
    + now rewrite G, Hact.
    + now rewrite Map_get_set_same, Map_set_set, Hact.
Qed.

Lemma act_Dir b parts m :
  parts <> [] -> act b parts (Dir m) = Dir (insertParts b parts m).
Proof.
  destruct parts as [|part rest]; [congruence|]. intros _.
  cbn [act]. now rewrite insertParts_cons.
Qed.

Lemma act_File b parts : act b parts File = File.
Proof. destruct parts, b; reflexivity. Qed.

End Walk.

(* ------------------------------------------------------------------ *)
(** ** The whole input acting on the root *)

Section Run.

Implicit Types (m : DirectoryMap) (n : Node) (es : list entry).

Lemma generateStructure_map_run_from tree m :
  Dir (fold_left insertItem tree m) = run (map entry_of tree) (Dir m).
Proof.
  revert m. induction tree as [|item tree IH]; intros m; simpl; [reflexivity|].
  rewrite IH. unfold run at 2. simpl. unfold insertItem.
  rewrite act_Dir by apply split_slash_nonempty. reflexivity.
Qed.

Lemma generateStructure_map_run tree :
  Dir (generateStructure_map tree) = run (map entry_of tree) (Dir []).
Proof. apply generateStructure_map_run_from. Qed.

Lemma run_cons e es n : run (e :: es) n = run es (act (fst e) (snd e) n).
Proof. reflexivity. Qed.

(** A node that ends as a directory was one all along. *)
Lemma run_Dir_inv es n m' :
  run es n = Dir m' ->
  (exists m, n = Dir m) /\ forallb (fun e => negb (root_blob e)) es = true.
Proof.
  revert n. induction es as [|[b p] es IH]; intros n H.
  - simpl in H. subst. split; [eauto|reflexivity].
  - rewrite run_cons in H. simpl in H.
    destruct (IH _ H) as [[m Hm] Hall]. simpl. rewrite Hall.
    destruct p as [|k rest].
    + destruct b; simpl in Hm; [discriminate|]. split; [eauto|reflexivity].
    + destruct n as [|m0]; [now rewrite act_File in Hm|].
      split; [eauto|]. unfold root_blob. simpl. now rewrite andb_false_r.
Qed.

Lemma below_cons name b p es :
  below name ((b, p) :: es)
  = match p with
    | k :: rest => if String.eqb k name then (b, rest) :: below name es
                   else below name es
    | [] => below name es
    end.
Proof.
  unfold below. simpl. destruct p as [|k rest]; [reflexivity|].
  now destruct (String.eqb k name).
Qed.

(** What the input leaves at a key of a directory, and in which order
    the keys stand: the child at [name] is the result of the entries
    going through [name], acting on what was there before. *)
Lemma run_Dir es : forall m,
  forallb (fun e => negb (root_blob e)) es = true ->
  exists m',
    run es (Dir m) = Dir m'
    /\ Map_keys m' = fold_left add_key (first_names es) (Map_keys m)
    /\ forall name,
         Map_get name m'
         = match below name es with
           | [] => Map_get name m
           | _ :: _ => Some (run (below name es) (or_new_map (Map_get name m)))
           end.
Proof.
  induction es as [|[b p] es IH]; intros m Hall.
  - exists m. repeat split. 
  - simpl in Hall. apply andb_true_iff in Hall as [He Hall].
    rewrite run_cons. cbn [fst snd].
    destruct p as [|k rest].
    + destruct b; [discriminate|]. simpl.
      destruct (IH m Hall) as (m' & Hrun & Hkeys & Hget).
      exists m'. repeat split; assumption.
    + cbn [act].
      set (c := act b rest (or_new_map (Map_get k m))).
      destruct (IH (Map_set k c m) Hall) as (m' & Hrun & Hkeys & Hget).
      exists m'. split; [exact Hrun|]. split.
      * rewrite Hkeys, Map_keys_set. reflexivity.
      * intros name. rewrite Hget, below_cons.
        destruct (String.eqb k name) eqn:E.
        -- apply String.eqb_eq in E. subst name.
           rewrite Map_get_set_same, run_cons. cbn [fst snd or_new_map].
           fold c. destruct (below k es); reflexivity.
        -- apply String.eqb_neq in E.
           rewrite Map_get_set_other by congruence. reflexivity.
Qed.

End Run.

(* ------------------------------------------------------------------ *)
(** ** Ancestors and the order of children *)

Section Paths.

Implicit Types (m : DirectoryMap) (n : Node) (es : list entry)
               (p q : list string).

Lemma In_below b name rest es :
  In (b, name :: rest) es -> In (b, rest) (below name es).
Proof.
  intros H. unfold below. apply in_flat_map.
  exists (b, name :: rest). split; [assumption|].
  simpl. rewrite String.eqb_refl. now left.
Qed.

Lemma below_In b name rest es :
  In (b, rest) (below name es) -> In (b, name :: rest) es.
Proof.
  unfold below. rewrite in_flat_map. intros [[b' p'] [Hin H]].
  simpl in H. destruct p' as [|k r]; [easy|].
  destruct (String.eqb k name) eqn:E; [|easy].
  apply String.eqb_eq in E. subst k.
  destruct H as [[= -> ->]|[]]. exact Hin.
Qed.

Lemma below_path_nil q : below_path q [] = [].
Proof. induction q; simpl; auto. Qed.

Lemma proper_prefix_nil q p : proper_prefix q p -> proper_prefix [] p.
Proof.
  intros (name & rest & ->). destruct q as [|a q]; simpl.
  - now exists name, rest.
  - now exists a, (q ++ name :: rest).
Qed.

Lemma proper_prefix_cons a q p :
  proper_prefix (a :: q) p <-> exists p', p = a :: p' /\ proper_prefix q p'.
Proof.
  split.
  - intros (name & rest & ->). exists (q ++ name :: rest).
    split; [reflexivity|]. now exists name, rest.
  - intros (p' & -> & name & rest & ->). now exists name, rest.
Qed.

Lemma node_at_empty_map q : node_at q (Dir []) <> Some File.
Proof. destruct q; simpl; discriminate. Qed.

(** Every proper prefix of an entry's path ends as a directory, as
    long as no blob of the input sits on a proper prefix of that path
    and no file stood there to begin with. *)
Lemma run_ancestors q : forall es n b p,
  In (b, p) es ->
  proper_prefix q p ->
  (forall e', In e' es -> fst e' = true -> ~ proper_prefix (snd e') p) ->
  (forall q', proper_prefix q' p -> node_at q' n <> Some File) ->
  is_dir (node_at q (run es n)) = true.
Proof.
  induction q as [|k q1 IH]; intros es n b p Hin Hq Hblob Hfile.
  all: pose proof (proper_prefix_nil _ _ Hq) as H0.
  all: assert (Hn : exists m, n = Dir m)
    by (destruct n as [|m]; [now destruct (Hfile [] H0)|eauto]).
  all: destruct Hn as [m ->].
  all: assert (Hall : forallb (fun e => negb (root_blob e)) es = true)
    by (apply forallb_forall; intros [b' p'] Hin';
        unfold root_blob; simpl; destruct b'; [|reflexivity];
        destruct p'; [|reflexivity];
        now destruct (Hblob _ Hin' eq_refl)).
  all: destruct (run_Dir es m Hall) as (m' & Hrun & _ & Hget).
  all: rewrite Hrun.
  - reflexivity.
  - apply proper_prefix_cons in Hq as (p1 & -> & Hq1).
    cbn [node_at]. rewrite Hget.
    pose proof (In_below _ _ _ _ Hin) as Hin1.
    destruct (below k es) as [|e0 es0] eqn:Eb; [easy|]. rewrite <- Eb in *.
    apply (IH (below k es) _ b p1); try assumption.
    + intros [b' p'] Hin' Hb' Hpp. simpl in *. subst b'.
      apply below_In in Hin'.
      apply (Hblob _ Hin' eq_refl). simpl.
      apply proper_prefix_cons. eauto.
    + intros q' Hq'. destruct (Map_get k m) as [c|] eqn:G; simpl.
      * specialize (Hfile (k :: q')). simpl in Hfile. rewrite G in Hfile.
        apply Hfile. apply proper_prefix_cons. eauto.
      * apply node_at_empty_map.
Qed.

Lemma keys_at_empty_map q : keys_at q (Dir []) = [].
Proof. destruct q; reflexivity. Qed.

(** The keys of any directory of the result are the keys it started
    with, followed by the names the entries passing through it ask
    for, each at its first request. *)
Lemma run_keys_at q : forall es n children,
  node_at q (run es n) = Some (Dir children) ->
  Map_keys children
  = fold_left add_key (first_names (below_path q es)) (keys_at q n).
Proof.
  induction q as [|k q1 IH]; intros es n children H.
  - simpl in H. injection H as H.
    destruct (run_Dir_inv _ _ _ H) as [[m ->] Hall].
    destruct (run_Dir es m Hall) as (m' & Hrun & Hkeys & _).
    rewrite Hrun in H. injection H as <-. exact Hkeys.
  - destruct (run es n) as [|m'] eqn:Hr; [discriminate|].
    destruct (run_Dir_inv _ _ _ Hr) as [[m ->] Hall].
    destruct (run_Dir es m Hall) as (m'' & Hrun & _ & Hget).
    rewrite Hrun in Hr. injection Hr as ->.
    cbn [node_at] in H. rewrite Hget in H. cbn [below_path].
    unfold keys_at at 1. cbn [node_at].
    destruct (below k es) as [|e0 es0] eqn:Eb.
    + rewrite below_path_nil. simpl.
      destruct (Map_get k m); [|discriminate]. now rewrite H.
    + rewrite <- Eb in *. rewrite (IH _ _ _ H). f_equal.
      destruct (Map_get k m); [reflexivity|]. simpl.
      apply keys_at_empty_map.
Qed.

Lemma first_names_below_path q : forall es,
  first_names (below_path q es)
  = flat_map (fun e => match next_name q (snd e) with
                       | Some name => [name]
                       | None => []
                       end) es.
Proof.
  induction q as [|k q IH]; intros es.
  - unfold first_names. apply flat_map_ext. now intros [b [|a p]].
  - cbn [below_path]. rewrite IH.
    induction es as [|[b p] es IHes]; [reflexivity|].
    rewrite below_cons. cbn [flat_map snd].
    rewrite <- IHes. destruct p as [|a p]; [now destruct q|].
    cbn [next_name]. rewrite (String.eqb_sym k a).
    destruct (String.eqb a k); reflexivity.
Qed.

Lemma first_names_entries q tree :
  first_names (below_path q (map entry_of tree)) = names_below q tree.
Proof.
  rewrite first_names_below_path. unfold names_below.
  induction tree as [|item tree IH]; [reflexivity|].
  simpl. now rewrite IH.
Qed.

Lemma filter_twice (f g : string -> bool) l :
  filter f (filter g l) = filter (fun y => g y && f y) l.
Proof.
  induction l as [|x l IH]; simpl; [reflexivity|].
  destruct (g x); simpl; [destruct (f x)|]; now rewrite IH.
Qed.

Lemma add_keys_first_occurrences l : forall acc,
  fold_left add_key l acc
  = acc ++ filter (fun y => negb (mem y acc)) (first_occurrences l).
Proof.
  induction l as [|x l IH]; intros acc; simpl.
  - now rewrite app_nil_r.
  - rewrite IH. unfold add_key. destruct (mem x acc) eqn:E; simpl.
    + f_equal. rewrite filter_twice. apply filter_ext_in. intros y _.
      destruct (String.eqb y x) eqn:Eyx; simpl; [|reflexivity].
      apply String.eqb_eq in Eyx. subst y. now rewrite E.
    + rewrite <- app_assoc. simpl. do 2 f_equal.
      rewrite filter_twice. apply filter_ext_in. intros y _.
      rewrite mem_app. simpl. rewrite orb_false_r, negb_orb.
      rewrite (String.eqb_sym x y). apply andb_comm.
Qed.

Lemma add_keys_from_empty l : fold_left add_key l [] = first_occurrences l.
Proof. rewrite add_keys_first_occurrences. simpl. apply filter_true. Qed.

End Paths.

(* ------------------------------------------------------------------ *)
(** ** The result is a well-formed [Map] *)

Section WellFormed.

Implicit Types (m : DirectoryMap) (n : Node).

Lemma Map_wf_iff m :
  Map_wf m = true
  <-> distinct (Map_keys m) = true
      /\ forall k v, In (k, v) m -> Node_wf v = true.
Proof.
  unfold Map_wf. cbn [Node_wf]. fold (Map_keys m).
  rewrite andb_true_iff, forallb_forall. split; intros [H1 H2]; split; auto.
  - intros k v Hin. exact (H2 _ Hin).
  - intros [k v] Hin. exact (H2 _ _ Hin).
Qed.

Lemma Map_wf_set k v m :
  Map_wf m = true -> Node_wf v = true -> Map_wf (Map_set k v m) = true.
Proof.
  rewrite !Map_wf_iff. intros [Hd Hall] Hv. split.
  - rewrite Map_keys_set. now apply distinct_add_key.
  - intros k' v' Hin. apply In_Map_set in Hin as [[= -> ->]|Hin]; eauto.
Qed.

Lemma Map_wf_get k v m :
  Map_wf m = true -> Map_get k m = Some v -> Node_wf v = true.
Proof.
  rewrite Map_wf_iff. intros [_ Hall] G. eapply Hall, Map_get_In, G.
Qed.

Lemma act_wf b parts : forall n,
  Node_wf n = true -> Node_wf (act b parts n) = true.
Proof.
  induction parts as [|k rest IH]; intros n Hn.
  - simpl. now destruct b.
  - destruct n as [|m]; [reflexivity|]. cbn [act].
    apply Map_wf_set; [exact Hn|]. apply IH.
    destruct (Map_get k m) eqn:G; [|reflexivity].
    eapply Map_wf_get; eauto.
Qed.

Lemma run_wf es : forall n, Node_wf n = true -> Node_wf (run es n) = true.
Proof.
  induction es as [|e es IH]; intros n Hn; [exact Hn|].
  rewrite run_cons. now apply IH, act_wf.
Qed.

(** The keys of every map [generateStructure] builds are distinct. *)
Lemma generateStructure_map_wf tree :
  Map_wf (generateStructure_map tree) = true.
Proof.
  unfold Map_wf. rewrite generateStructure_map_run. now apply run_wf.
Qed.

End WellFormed.

(* ------------------------------------------------------------------ *)
(** ** The renderer, entry by entry *)

Section Render.

Lemma append_assoc (a b c : string) : ((a ++ b) ++ c = a ++ (b ++ c))%string.
Proof. induction a as [|x a IH]; simpl; congruence. Qed.

Lemma append_empty_r (a : string) : (a ++ "")%string = a.
Proof. induction a as [|x a IH]; simpl; congruence. Qed.

Lemma concat_all_app l1 l2 :
  concat_all (l1 ++ l2) = (concat_all l1 ++ concat_all l2)%string.
Proof.
  induction l1 as [|x l1 IH]; simpl; [reflexivity|].
  now rewrite IH, append_assoc.
Qed.

(** The rendering of a map is the concatenation, in the order of the
    map, of what each child contributes. *)
Lemma renderEntry_block prefix result kv :
  renderEntry renderNode prefix result kv
  = (result ++ child_block prefix kv)%string.
Proof.
  unfold renderEntry, child_block, buildStructureString.
  destruct kv as [k v]. cbn [fst snd].
  destruct (String.eqb k "type"); [now rewrite append_empty_r|].
  destruct v as [|sub]; rewrite ?append_assoc, ?append_empty_r; reflexivity.
Qed.

Lemma render_loop prefix map : forall result,
  fold_left (renderEntry renderNode prefix) map result
  = (result ++ concat_all (List.map (child_block prefix) map))%string.
Proof.
  induction map as [|kv map IH]; intros result; simpl.
  - now rewrite append_empty_r.
  - now rewrite IH, renderEntry_block, append_assoc.
Qed.

(** The rendering of a map is the concatenation, in the order of the
    map, of what each child contributes. *)
Lemma buildStructureString_blocks map prefix :
  buildStructureString map prefix
  = concat_all (List.map (child_block prefix) map).
Proof. unfold buildStructureString. cbn [renderNode]. apply render_loop. Qed.

End Render.

(* ------------------------------------------------------------------ *)
(** ** The filter, entry by entry *)

Section FilterFacts.

Variable toLowerCase : string -> string.

Implicit Types (m : DirectoryMap) (term : string).

Lemma distinct_app_cons l1 x l2 :
  distinct (l1 ++ x :: l2) = true ->
  mem x l1 = false /\ mem x l2 = false /\ distinct (l1 ++ l2) = true.
Proof.
  induction l1 as [|y l1 IH]; simpl.
  - rewrite andb_true_iff, negb_true_iff. tauto.
  - rewrite !andb_true_iff, !negb_true_iff, !mem_app. simpl.
    rewrite !orb_false_iff. intros [(Hy1 & Hyx & Hy2) Hd].
    destruct (IH Hd) as (H1 & H2 & H3).
    rewrite String.eqb_sym. tauto.
Qed.

Lemma Map_keys_app m1 m2 : Map_keys (m1 ++ m2) = Map_keys m1 ++ Map_keys m2.
Proof. apply map_app. Qed.

Lemma filterEntry_keep term acc kv :
  mem (fst kv) (Map_keys acc) = false ->
  filterEntry toLowerCase (filterNode toLowerCase) term acc kv
  = acc ++ keep toLowerCase term kv.
Proof.
  intros Hk. destruct kv as [k [|sub]];
    unfold filterEntry, keep, filterStructure; cbn [fst snd] in *.
  - destruct (name_matches toLowerCase k term); [|now rewrite app_nil_r].
    now apply Map_set_absent.
  - destruct (_ || _); [|now rewrite app_nil_r].
    now apply Map_set_absent.
Qed.

Lemma keep_keys term kv k :
  In k (Map_keys (keep toLowerCase term kv)) -> k = fst kv.
Proof.
  destruct kv as [k0 [|sub]]; unfold keep; cbn [fst snd].
  - destruct (name_matches toLowerCase k0 term); simpl; intuition.
  - destruct (_ || _); simpl; intuition.
Qed.

Lemma filter_loop term m : forall acc,
  distinct (Map_keys acc ++ Map_keys m) = true ->
  fold_left (filterEntry toLowerCase (filterNode toLowerCase) term) m acc
  = acc ++ flat_map (keep toLowerCase term) m.
Proof.
  induction m as [|kv m IH]; intros acc Hd; simpl.
  - now rewrite app_nil_r.
  - simpl in Hd. destruct (distinct_app_cons _ _ _ Hd) as (Hacc & Hm & Hd').
    rewrite filterEntry_keep by assumption.
    rewrite IH, <- app_assoc; [reflexivity|].
    rewrite Map_keys_app, <- app_assoc.
    destruct kv as [k [|sub]]; unfold keep; cbn [fst snd] in *.
    + destruct (name_matches toLowerCase k term); simpl; assumption.
    + destruct (_ || _); simpl; assumption.
Qed.

(** On a well-formed map the filter keeps or drops each entry on its
    own, in the order of the map. *)
Lemma filterStructure_flat m term :
  distinct (Map_keys m) = true ->
  filterStructure toLowerCase m term = flat_map (keep toLowerCase term) m.
Proof.
  intros Hd. unfold filterStructure. cbn [filterNode].
  now rewrite filter_loop.
Qed.

Lemma Map_get_app_absent k m1 m2 :
  mem k (Map_keys m1) = false -> Map_get k (m1 ++ m2) = Map_get k m2.
Proof.
  induction m1 as [|[k0 v0] m1 IH]; simpl; [reflexivity|].
  destruct (String.eqb k0 k); simpl; [discriminate|exact IH].
Qed.

Lemma Map_get_keep_other term k0 v0 k :
  k0 <> k -> mem k (Map_keys (keep toLowerCase term (k0, v0))) = false.
Proof.
  intros Hne. destruct (mem k _) eqn:E; [|reflexivity].
  apply mem_In, keep_keys in E. simpl in E. congruence.
Qed.

Lemma Map_get_flat_keep term k m :
  distinct (Map_keys m) = true ->
  Map_get k (flat_map (keep toLowerCase term) m)
  = match Map_get k m with
    | Some v => Map_get k (keep toLowerCase term (k, v))
    | None => None
    end.
Proof.
  induction m as [|[k0 v0] m IH]; simpl; [reflexivity|].
  rewrite andb_true_iff, negb_true_iff. intros [Hk0 Hd].
  destruct (String.eqb k0 k) eqn:E.
  - apply String.eqb_eq in E. subst k0.
    assert (Hrest : Map_get k (flat_map (keep toLowerCase term) m) = None).
    { rewrite IH by assumption.
      now apply Map_get_None_mem in Hk0 as ->. }
    destruct v0 as [|sub]; unfold keep; cbn [fst snd].
    + destruct (name_matches toLowerCase k term); simpl; [|exact Hrest].
      now rewrite String.eqb_refl.
    + destruct (_ || _); simpl; [|exact Hrest].
      now rewrite String.eqb_refl.
  - apply String.eqb_neq in E.
    rewrite Map_get_app_absent by now apply Map_get_keep_other.
    now apply IH.
Qed.

End FilterFacts.

(* ================================================================== *)
(** * The object store *)

Section StoreFacts.

Import Heap.
Implicit Types (s : store) (a b c : nat) (o : object).

Lemma length_update s a o : length (update s a o) = length s.
Proof.
  revert a. induction s as [|x s IH]; intros [|a]; simpl; auto.
Qed.

Lemma deref_update_same s a o :
  a < length s -> deref (update s a o) a = o.
Proof.
  unfold deref. revert a.
  induction s as [|x s IH]; intros [|a] H; simpl in *; try lia; auto.
  apply IH. lia.
Qed.

Lemma deref_update_other s a c o :
  c <> a -> deref (update s a o) c = deref s c.
Proof.
  unfold deref. revert a c.
  induction s as [|x s IH]; intros [|a] [|c] H; simpl; auto; try congruence.
Qed.

Lemma deref_app_old s t a : a < length s -> deref (s ++ t) a = deref s a.
Proof. intros H. unfold deref. now apply app_nth1. Qed.

Lemma deref_outside s a : length s <= a -> deref s a = [].
Proof. intros H. unfold deref. now apply nth_overflow. Qed.

Lemma deref_alloc s a : deref (s ++ [[]]) a = deref s a.
Proof.
  destruct (Nat.lt_ge_cases a (length s)) as [H|H].
  - now apply deref_app_old.
  - rewrite (deref_outside s a H). unfold deref.
    rewrite app_nth2 by assumption.
    destruct (a - length s) as [|[|n]]; reflexivity.
Qed.

Lemma length_set_at s a key v : length (set_at s a key v) = length s.
Proof. apply length_update. Qed.

Lemma deref_set_at_same s a key v :
  a < length s -> deref (set_at s a key v) a = Map_set key v (deref s a).
Proof. apply deref_update_same. Qed.

Lemma deref_set_at_other s a c key v :
  c <> a -> deref (set_at s a key v) c = deref s c.
Proof. apply deref_update_other. Qed.

End StoreFacts.

(* ------------------------------------------------------------------ *)
(** ** The store holds the tree the pure functions compute *)

Section Representation.

Import Heap.
Implicit Types (s : store) (a b c : nat) (o : object) (m : DirectoryMap)
               (fp : list nat).

(** The footprint lies inside the store. *)
Lemma repr_bound s :
  (forall v n fp, repr s v n fp -> forall c, In c fp -> c < length s)
  /\ (forall o m fp, repr_entries s o m fp ->
                     forall c, In c fp -> c < length s).
Proof.
  apply repr_mutual.
  - intros c [].
  - intros a m fp Ha _ _ IH c [<-|Hc]; auto.
  - intros c [].
  - intros key v n fp1 o m fp2 _ IH1 _ IH2 _ c Hc.
    apply in_app_or in Hc as [Hc|Hc]; auto.
Qed.

(** A store that grew, and changed outside the footprint only, holds
    the same tree. *)
Lemma repr_frame s s' :
  length s <= length s' ->
  (forall v n fp, repr s v n fp ->
                  (forall c, In c fp -> deref s' c = deref s c) ->
                  repr s' v n fp)
  /\ (forall o m fp, repr_entries s o m fp ->
                     (forall c, In c fp -> deref s' c = deref s c) ->
                     repr_entries s' o m fp).
Proof.
  intros Hlen. apply repr_mutual.
  - intros _. constructor.
  - intros a m fp Ha Hnotin _ IH Hsame. constructor; [lia|assumption|].
    rewrite (Hsame a) by now left. apply IH. intros c Hc. apply Hsame.
    now right.
  - intros _. constructor.
  - intros key v n fp1 o m fp2 _ IH1 _ IH2 Hd Hsame.
    constructor; [apply IH1|apply IH2|assumption];
      intros c Hc; apply Hsame, in_or_app; auto.
Qed.

Lemma repr_entries_app s o1 m1 fp1 o2 m2 fp2 :
  repr_entries s o1 m1 fp1 ->
  repr_entries s o2 m2 fp2 ->
  disjoint fp1 fp2 ->
  repr_entries s (o1 ++ o2) (m1 ++ m2) (fp1 ++ fp2).
Proof.
  intros H1 H2. induction H1 as [|key v n fpv o m fpo Hv Ho IH Hd]; intros Hdis.
  - exact H2.
  - simpl. rewrite <- app_assoc. constructor; [assumption| |].
    + apply IH. intros c Hc. apply Hdis, in_or_app. now right.
    + intros c Hc Hin. apply in_app_or in Hin as [Hin|Hin].
      * exact (Hd c Hc Hin).
      * apply (Hdis c); [apply in_or_app; now left|assumption].
Qed.

(** The store and the tree have the same keys in the same order. *)
Lemma repr_entries_keys s o m fp :
  repr_entries s o m fp -> Map_keys o = Map_keys m.
Proof.
  induction 1 as [|key v n fp1 o m fp2 _ _ IH _]; [reflexivity|].
  unfold Map_keys in *. simpl. now rewrite IH.
Qed.

(** Cutting a represented map at the first entry for a key. *)
Lemma repr_entries_split s key o m fp :
  repr_entries s o m fp ->
  forall v, Map_get key o = Some v ->
  exists o1 o2 m1 m2 n fp1 fpv fp2,
    o = o1 ++ (key, v) :: o2
    /\ m = m1 ++ (key, n) :: m2
    /\ mem key (Map_keys o1) = false
    /\ mem key (Map_keys m1) = false
    /\ fp = fp1 ++ fpv ++ fp2
    /\ repr_entries s o1 m1 fp1
    /\ repr s v n fpv
    /\ repr_entries s o2 m2 fp2
    /\ disjoint fp1 fpv /\ disjoint fp1 fp2 /\ disjoint fpv fp2.
Proof.
  induction 1 as [|k0 v0 n0 fp0 o m fpo Hv0 Ho IH Hd]; intros v G;
    [discriminate|].
  simpl in G. destruct (String.eqb k0 key) eqn:E.
  - apply String.eqb_eq in E. subst k0. injection G as ->.
    exists [], o, [], m, n0, [], fp0, fpo. simpl.
    repeat split; try assumption; try constructor; intros c [].
  - destruct (IH v G)
      as (o1 & o2 & m1 & m2 & n & fp1 & fpv & fp2
          & -> & -> & Ho1 & Hm1 & -> & R1 & Rv & R2 & D1 & D2 & D3).
    exists ((k0, v0) :: o1), o2, ((k0, n0) :: m1), m2, n, (fp0 ++ fp1), fpv, fp2.
    simpl. rewrite E, Ho1, Hm1, <- app_assoc.
    assert (Hd1 : disjoint fp0 fp1)
      by (intros c Hc Hin; apply (Hd c Hc), in_or_app; now left).
    assert (Hdv : disjoint fp0 fpv)
      by (intros c Hc Hin; apply (Hd c Hc), in_or_app; right;
          apply in_or_app; now left).
    assert (Hd2 : disjoint fp0 fp2)
      by (intros c Hc Hin; apply (Hd c Hc), in_or_app; right;
          apply in_or_app; now right).
    repeat split; try assumption; try reflexivity.
    + now constructor.
    + intros c Hc. apply in_app_or in Hc as [Hc|Hc]; auto.
    + intros c Hc. apply in_app_or in Hc as [Hc|Hc]; auto.
Qed.

Lemma repr_entries_absent s key o m fp :
  repr_entries s o m fp -> Map_get key o = None -> Map_get key m = None.
Proof.
  intros H G. apply Map_get_None_mem. apply Map_get_None_mem in G.
  now rewrite <- (repr_entries_keys _ _ _ _ H).
Qed.

Lemma Map_set_split {V : Type} key (v v' : V) (l1 l2 : list (string * V)) :
  mem key (Map_keys l1) = false ->
  Map_set key v' (l1 ++ (key, v) :: l2) = l1 ++ (key, v') :: l2.
Proof.
  induction l1 as [|[k0 v0] l1 IH]; simpl.
  - now rewrite String.eqb_refl.
  - destruct (String.eqb k0 key); simpl; [discriminate|].
    intros H. now rewrite IH.
Qed.

Lemma Map_get_split {V : Type} key (v : V) (l1 l2 : list (string * V)) :
  mem key (Map_keys l1) = false ->
  Map_get key (l1 ++ (key, v) :: l2) = Some v.
Proof.
  induction l1 as [|[k0 v0] l1 IH]; simpl.
  - now rewrite String.eqb_refl.
  - destruct (String.eqb k0 key); simpl; [discriminate|exact IH].
Qed.

Lemma act_Dir_unless_last_blob (blob : bool) rest m :
  match rest with [] => true | _ :: _ => false end && blob = false ->
  act blob rest (Dir m) = Dir (insertParts blob rest m).
Proof.
  destruct rest as [|r rest]; [|intros _; now apply act_Dir].
  destruct blob; [discriminate|reflexivity].
Qed.

Lemma walk_not_map (blob : bool) parts s currentLevel :
  (forall a, currentLevel <> Some (VMap a)) ->
  walk blob parts s currentLevel = s.
Proof.
  intros H. induction parts as [|part rest IH]; [reflexivity|].
  cbn [walk]. destruct currentLevel as [[|a]|]; auto. now destruct (H a).
Qed.

(** One object rebuilt around a changed or new last child. *)
Lemma repr_map_append s s' a o m fp0 key v n fpv :
  repr_entries s o m fp0 ->
  a < length s -> ~ In a fp0 ->
  length s <= length s' ->
  (forall c, c < length s -> c <> a -> deref s' c = deref s c) ->
  deref s' a = o ++ [(key, v)] ->
  repr s' v n fpv ->
  (forall c, In c fpv -> length s <= c) ->
  repr s' (VMap a) (Dir (m ++ [(key, n)])) (a :: fp0 ++ fpv ++ []).
Proof.
  intros Hent Ha Hnotin Hlen Hsame Hderef Hv Hfresh.
  pose proof (proj2 (repr_bound s) _ _ _ Hent) as Hb.
  constructor; [lia| |].
  - rewrite !in_app_iff. intros [Hin|[Hin|[]]]; [auto|].
    apply Hfresh in Hin. lia.
  - rewrite Hderef. apply repr_entries_app.
    + apply (proj2 (repr_frame s s' Hlen) _ _ _ Hent).
      intros c Hc. apply Hsame; [auto|]. intros ->. auto.
    + constructor; [assumption|constructor|intros c _ []].
    + intros c Hc Hin. rewrite app_nil_r in Hin.
      apply Hb in Hc. apply Hfresh in Hin. lia.
Qed.

(** One object rebuilt around a changed child in the middle. *)
Lemma repr_map_replace s s' a o1 o2 m1 m2 fp1 fpv fp2 key v n fpv' :
  repr_entries s o1 m1 fp1 ->
  repr_entries s o2 m2 fp2 ->
  disjoint fp1 fpv -> disjoint fp1 fp2 -> disjoint fpv fp2 ->
  a < length s -> ~ In a (fp1 ++ fpv ++ fp2) ->
  length s <= length s' ->
  (forall c, c < length s -> ~ In c fpv -> c <> a ->
             deref s' c = deref s c) ->
  deref s' a = o1 ++ (key, v) :: o2 ->
  repr s' v n fpv' ->
  (forall c, In c fpv' -> In c fpv \/ length s <= c) ->
  repr s' (VMap a) (Dir (m1 ++ (key, n) :: m2)) (a :: fp1 ++ fpv' ++ fp2).
Proof.
  intros H1 H2 D1v D12 Dv2 Ha Hnotin Hlen Hsame Hderef Hv Hsub.
  pose proof (proj2 (repr_bound s) _ _ _ H1) as Hb1.
  pose proof (proj2 (repr_bound s) _ _ _ H2) as Hb2.
  rewrite !in_app_iff in Hnotin.
  constructor; [lia| |].
  - rewrite !in_app_iff. intros [Hin|[Hin|Hin]]; [tauto| |tauto].
    apply Hsub in Hin as [Hin|Hin]; [tauto|lia].
  - rewrite Hderef. apply repr_entries_app.
    + apply (proj2 (repr_frame s s' Hlen) _ _ _ H1).
      intros c Hc. apply Hsame; [auto|exact (D1v c Hc)|].
      intros ->. tauto.
    + constructor; [assumption| |].
      * apply (proj2 (repr_frame s s' Hlen) _ _ _ H2).
        intros c Hc. apply Hsame; [auto| |].
        -- intros Hin. exact (Dv2 c Hin Hc).
        -- intros ->. tauto.
      * intros c Hc Hin. apply Hsub in Hc as [Hc|Hc].
        -- exact (Dv2 c Hc Hin).
        -- apply Hb2 in Hin. lia.
    + intros c Hc Hin. apply in_app_or in Hin as [Hin|Hin].
      * apply Hsub in Hin as [Hin|Hin]; [exact (D1v c Hc Hin)|].
        apply Hb1 in Hc. lia.
      * exact (D12 c Hc Hin).
Qed.

(** The walk of an entry from the map at address [a] does to the store
    what [insertParts] does to the tree held there; it touches no object
    outside the footprint of that map and adds only new objects to it. *)
Lemma walk_repr (blob : bool) parts : forall s a m fp,
  repr s (VMap a) (Dir m) fp ->
  exists fp',
    repr (walk blob parts s (Some (VMap a))) (VMap a)
      (Dir (insertParts blob parts m)) fp'
    /\ length s <= length (walk blob parts s (Some (VMap a)))
    /\ (forall c, c < length s -> ~ In c fp ->
                  deref (walk blob parts s (Some (VMap a))) c = deref s c)
    /\ (forall c, In c fp' -> In c fp \/ length s <= c).
Proof.
  induction parts as [|part rest IH]; intros s a m fp Hrepr.
  { exists fp. simpl. auto. }
  inversion Hrepr as [|a' m' fp0 Ha Hnotin Hent]; subst.
  rewrite insertParts_cons. cbn [walk]. unfold Map_has.
  set (L := length s).
  destruct (Map_get part (deref s a)) as [v|] eqn:G.
  - (* the key is there *)
    destruct (repr_entries_split _ _ _ _ _ Hent v G)
      as (o1 & o2 & m1 & m2 & n & fp1 & fpv & fp2
          & Ho & -> & Ho1 & Hm1 & -> & R1 & Rv & R2 & D1v & D12 & Dv2).
    rewrite (Map_get_split part n m1 m2 Hm1). cbn [or_new_map].
    rewrite (Map_set_split part n _ m1 m2 Hm1).
    destruct (match rest with [] => true | _ :: _ => false end && blob) eqn:Last.
    + (* last segment of a blob: the file object replaces the child *)
      assert (rest = [] /\ blob = true) as [-> ->]
        by (destruct rest, blob; simpl in Last; try discriminate; auto).
      cbn [walk act].
      exists (a :: fp1 ++ [] ++ fp2).
      rewrite length_set_at. repeat split; [|lia| |].
      * apply (repr_map_replace s _ a o1 o2 m1 m2 fp1 fpv fp2 part VFile File []);
          try assumption.
        -- rewrite length_set_at. lia.
        -- intros c _ _ Hc. now apply deref_set_at_other.
        -- rewrite deref_set_at_same, Ho by assumption.
           now apply Map_set_split.
        -- constructor.
        -- intros c [].
      * intros c _ Hc. apply deref_set_at_other. intros ->. apply Hc. now left.
      * intros c. simpl. rewrite !in_app_iff. tauto.
    + (* the walk goes on from the child *)
      rewrite G. destruct v as [|c0].
      * (* a file: every later iteration returns *)
        inversion Rv; subst. rewrite walk_not_map by discriminate.
        rewrite act_File. exists (a :: fp1 ++ [] ++ fp2).
        repeat split; auto.
      * inversion Rv as [|c0' msub fpc Hc0 Hc0notin Hsub]; subst.
        rewrite act_Dir_unless_last_blob by assumption.
        destruct (IH s c0 msub (c0 :: fpc) Rv) as (fpv' & R' & Hlen & Hframe & Hfp).
        set (s' := walk blob rest s (Some (VMap c0))) in *.
        assert (Hanot : ~ In a (c0 :: fpc))
          by (intros Hin; apply Hnotin; rewrite !in_app_iff; tauto).
        exists (a :: fp1 ++ fpv' ++ fp2). repeat split; [|lia| |].
        -- apply (repr_map_replace s s' a o1 o2 m1 m2 fp1 (c0 :: fpc) fp2
                    part (VMap c0) _ fpv'); try assumption.
           ++ intros c Hc Hn _. now apply Hframe.
           ++ rewrite Hframe by assumption. exact Ho.
        -- intros c Hc Hn. apply Hframe; [assumption|].
           intros Hin. apply Hn. right. rewrite !in_app_iff. tauto.
        -- intros c [<-|Hin]; [left; now left|].
           rewrite !in_app_iff in Hin. destruct Hin as [Hin|[Hin|Hin]].
           ++ left. right. rewrite !in_app_iff. tauto.
           ++ apply Hfp in Hin as [Hin|Hin]; [left|now right].
              right. rewrite !in_app_iff. tauto.
           ++ left. right. rewrite !in_app_iff. tauto.
  - (* the key is absent: a new map is created *)
    pose proof (repr_entries_absent _ _ _ _ _ Hent G) as Gm.
    rewrite Gm. cbn [or_new_map alloc]. fold L.
    assert (Hkm : mem part (Map_keys m) = false) by now apply Map_get_None_mem.
    assert (Hko : mem part (Map_keys (deref s a)) = false)
      by now apply Map_get_None_mem.
    rewrite (Map_set_absent part _ m Hkm).
    set (s1 := set_at (s ++ [[]]) a part (VMap L)).
    assert (Hl1 : length s1 = S L)
      by (unfold s1; rewrite length_set_at, length_app; simpl; lia).
    assert (Hd1a : deref s1 a = deref s a ++ [(part, VMap L)]).
    { unfold s1. rewrite deref_set_at_same
        by (rewrite length_app; simpl; lia).
      rewrite deref_alloc. now apply Map_set_absent. }
    assert (Hd1 : forall c, c <> a -> deref s1 c = deref s c).
    { intros c Hc. unfold s1. rewrite deref_set_at_other by assumption.
      apply deref_alloc. }
    destruct (match rest with [] => true | _ :: _ => false end && blob) eqn:Last.
    + assert (rest = [] /\ blob = true) as [-> ->]
        by (destruct rest, blob; simpl in Last; try discriminate; auto).
      cbn [walk act].
      set (s2 := set_at s1 a part VFile).
      assert (Hd2a : deref s2 a = deref s a ++ [(part, VFile)]).
      { unfold s2. rewrite deref_set_at_same by lia.
        rewrite Hd1a. rewrite <- (Map_set_absent part (VMap L) _ Hko).
        rewrite Map_set_set. now apply Map_set_absent. }
      exists (a :: fp0 ++ [] ++ []).
      assert (Hl2 : length s2 = S L) by (unfold s2; now rewrite length_set_at).
      repeat split; [|lia| |].
      * apply (repr_map_append s s2 a (deref s a) m fp0 part VFile File []);
          try assumption.
        -- lia.
        -- intros c _ Hc. unfold s2. rewrite deref_set_at_other by assumption.
           now apply Hd1.
        -- constructor.
        -- intros c [].
      * intros c _ Hc. unfold s2. rewrite deref_set_at_other.
        -- apply Hd1. intros ->. apply Hc. now left.
        -- intros ->. apply Hc. now left.
      * intros c [<-|Hin]; [left; now left|].
        rewrite !in_app_iff in Hin. destruct Hin as [Hin|[[]|[]]].
        left. now right.
    + rewrite Hd1a, (Map_get_split part (VMap L) (deref s a) [] Hko).
      rewrite act_Dir_unless_last_blob by assumption.
      assert (RL : repr s1 (VMap L) (Dir []) [L]).
      { constructor; [lia|intros []|].
        rewrite Hd1 by (unfold L; lia). rewrite deref_outside by (unfold L; lia).
        constructor. }
      destruct (IH s1 L [] [L] RL) as (fpv' & R' & Hlen & Hframe & Hfp).
      set (s' := walk blob rest s1 (Some (VMap L))) in *.
      exists (a :: fp0 ++ fpv' ++ []). repeat split; [|lia| |].
      * apply (repr_map_append s s' a (deref s a) m fp0 part (VMap L) _ fpv');
          try assumption.
        -- lia.
        -- intros c Hc Hca. rewrite Hframe; [now apply Hd1|lia|].
           intros [<-|[]]. unfold L in Hc. lia.
        -- rewrite Hframe; [exact Hd1a|lia|]. intros [<-|[]]. unfold L in Ha. lia.
        -- intros c Hc. apply Hfp in Hc as [[<-|[]]|Hc]; unfold L; lia.
      * intros c Hc Hn. rewrite Hframe; [|lia|].
        -- apply Hd1. intros ->. apply Hn. now left.
        -- intros [<-|[]]. unfold L in Hc. lia.
      * intros c [<-|Hin]; [left; now left|].
        rewrite !in_app_iff in Hin. destruct Hin as [Hin|[Hin|[]]].
        -- left. now right.
        -- right. apply Hfp in Hin as [[<-|[]]|Hin]; unfold L; lia.
Qed.

End Representation.

Section RepresentationSet.

Import Heap.
Implicit Types (s : store) (o : object) (m : DirectoryMap) (fp : list nat).

(** [set] on a represented map, with a child held apart from the rest. *)
Lemma repr_entries_set s key o m fp v n fpv :
  repr_entries s o m fp ->
  repr s v n fpv ->
  disjoint fp fpv ->
  exists fp',
    repr_entries s (Map_set key v o) (Map_set key n m) fp'
    /\ forall c, In c fp' -> In c fp \/ In c fpv.
Proof.
  intros Hent Hv Hd.
  destruct (Map_get key o) as [v0|] eqn:G.
  - destruct (repr_entries_split _ _ _ _ _ Hent v0 G)
      as (o1 & o2 & m1 & m2 & n0 & fp1 & fp0 & fp2
          & -> & -> & Ho1 & Hm1 & -> & R1 & R0 & R2 & D10 & D12 & D02).
    rewrite (Map_set_split key v0 v o1 o2 Ho1).
    rewrite (Map_set_split key n0 n m1 m2 Hm1).
    exists (fp1 ++ fpv ++ fp2). split.
    + apply repr_entries_app; [assumption| |].
      * constructor; [assumption|assumption|].
        intros c Hc Hin. apply (Hd c); [|assumption].
        rewrite !in_app_iff. tauto.
      * intros c Hc Hin. apply in_app_or in Hin as [Hin|Hin].
        -- apply (Hd c); [|assumption]. rewrite !in_app_iff. tauto.
        -- exact (D12 c Hc Hin).
    + intros c. rewrite !in_app_iff. tauto.
  - pose proof (repr_entries_absent _ _ _ _ _ Hent G) as Gm.
    rewrite (Map_set_absent key v o) by now apply Map_get_None_mem.
    rewrite (Map_set_absent key n m) by now apply Map_get_None_mem.
    exists (fp ++ fpv ++ []). split.
    + apply repr_entries_app; [assumption| |].
      * constructor; [assumption|constructor|intros c _ []].
      * intros c Hc Hin. rewrite app_nil_r in Hin. exact (Hd c Hc Hin).
    + intros c. rewrite !in_app_iff. simpl. tauto.
Qed.

End RepresentationSet.

(* ------------------------------------------------------------------ *)
(** ** The three functions on the store compute what the pure ones do *)

Section Refinement.

Implicit Types (s : Heap.store) (m : DirectoryMap) (fp : list nat).

Lemma insertItems_repr tree : forall s m fp,
  Heap.repr s (Heap.VMap Heap.structureMap) (Dir m) fp ->
  exists fp',
    Heap.repr (fold_left Heap.insertItem tree s)
      (Heap.VMap Heap.structureMap) (Dir (fold_left insertItem tree m)) fp'.
Proof.
  induction tree as [|item tree IH]; intros s m fp H; [eauto|].
  simpl. unfold Heap.insertItem at 2, insertItem at 2.
  destruct (walk_repr (is_blob item) (JS.split_slash (path item)) s
              Heap.structureMap m fp H) as (fp' & H' & _).
  exact (IH _ _ _ H').
Qed.

(** The store [generateStructure] leaves holds, at [structureMap], the
    tree the pure builder computes. *)
Lemma generateStructure_store_repr tree :
  exists fp,
    Heap.repr (Heap.generateStructure_store tree)
      (Heap.VMap Heap.structureMap) (Dir (generateStructure_map tree)) fp.
Proof.
  apply (insertItems_repr tree [[]] [] [0]).
  constructor; [simpl; lia|intros []|constructor].
Qed.

(** On a store that holds a tree the renderer returns, as soon as the
    fuel covers the objects of the tree, the text the pure renderer
    gives for that tree. *)
Lemma heap_render_correct s :
  (forall v n fp,
      Heap.repr s v n fp ->
      forall a, v = Heap.VMap a ->
      forall fuel prefix,
        length fp <= fuel ->
        Heap.buildStructureString fuel s a prefix = Some (renderNode n prefix))
  /\ (forall o m fp,
        Heap.repr_entries s o m fp ->
        forall fuel prefix result,
          length fp <= fuel ->
          fold_left
            (Heap.renderEntry (Heap.buildStructureString fuel s) prefix)
            o (Some result)
          = Some (fold_left (renderEntry renderNode prefix) m result)).
Proof.
  apply Heap.repr_mutual.
  - intros a [=].
  - intros a m fp Ha Hnotin _ IH a' [= <-] fuel prefix Hfuel.
    simpl in Hfuel. destruct fuel as [|fuel]; [lia|].
    cbn [Heap.buildStructureString renderNode]. apply IH. lia.
  - reflexivity.
  - intros key v n fp1 o m fp2 Hv IHv _ IHo _ fuel prefix result Hfuel.
    rewrite length_app in Hfuel.
    cbn [fold_left]. unfold Heap.renderEntry at 2, renderEntry at 2.
    cbn [fst snd].
    destruct (String.eqb key "type"); [apply IHo; lia|].
    inversion Hv as [|b msub fpb Hb Hnotin Hsub]; subst; [apply IHo; lia|].
    rewrite (IHv b eq_refl fuel (prefix ++ indentUnit)%string) by lia.
    apply IHo. lia.
Qed.

Variable toLowerCase : string -> string.

Lemma repr_size s a m fp :
  Heap.repr s (Heap.VMap a) (Dir m) fp ->
  Map_size (Heap.deref s a) = Map_size m.
Proof.
  intros H. inversion H as [|a' m' fp0 Ha Hnotin Hent]; subst.
  apply repr_entries_keys in Hent. unfold Map_size, Map_keys in *.
  now rewrite <- (length_map fst), Hent, length_map.
Qed.

(** [filteredMap.set(key, v)] for a value held in new objects. *)
Lemma heap_filter_set si sj filteredMap key v n fpv macc fpacc :
  filteredMap < length si ->
  Heap.repr_entries si (Heap.deref si filteredMap) macc fpacc ->
  (forall c, In c fpacc -> filteredMap < c) ->
  extends si sj ->
  Heap.repr sj v n fpv ->
  (forall c, In c fpv -> length si <= c) ->
  exists fpacc',
    Heap.repr_entries (Heap.set_at sj filteredMap key v)
      (Heap.deref (Heap.set_at sj filteredMap key v) filteredMap)
      (Map_set key n macc) fpacc'
    /\ forall c, In c fpacc' -> filteredMap < c.
Proof.
  intros Hfm Hacc Hfresh [Hlen Hsame] Hv Hfv.
  set (sk := Heap.set_at sj filteredMap key v).
  pose proof (proj2 (repr_bound si) _ _ _ Hacc) as Hbacc.
  assert (Hlk : length sk = length sj) by apply length_set_at.
  assert (Hdk : forall c, c <> filteredMap -> Heap.deref sk c = Heap.deref sj c)
    by (intros c Hc; now apply deref_set_at_other).
  assert (Hacck : Heap.repr_entries sk (Heap.deref si filteredMap) macc fpacc).
  { apply (proj2 (repr_frame si sk ltac:(lia)) _ _ _ Hacc).
    intros c Hc. pose proof (Hfresh c Hc). pose proof (Hbacc c Hc).
    rewrite Hdk by lia. apply Hsame. lia. }
  assert (Hvk : Heap.repr sk v n fpv).
  { apply (proj1 (repr_frame sj sk ltac:(lia)) _ _ _ Hv).
    intros c Hc. apply Hfv in Hc. apply Hdk. lia. }
  destruct (repr_entries_set sk key _ _ _ _ _ _ Hacck Hvk) as (fp' & R & Hfp').
  - intros c Hc Hin. apply Hbacc in Hc. apply Hfv in Hin. lia.
  - exists fp'. split.
    + unfold sk at 2. rewrite deref_set_at_same by lia.
      rewrite Hsame by lia. exact R.
    + intros c Hc. apply Hfp' in Hc as [Hc|Hc]; [auto|].
      apply Hfv in Hc. lia.
Qed.

Lemma extends_refl s : extends s s.
Proof. split; auto. Qed.

Lemma extends_trans s1 s2 s3 : extends s1 s2 -> extends s2 s3 -> extends s1 s3.
Proof.
  intros [L1 S1] [L2 S2]. split; [lia|].
  intros c Hc. rewrite S2 by lia. auto.
Qed.

Lemma extends_alloc s : extends s (s ++ [[]]).
Proof.
  split; [rewrite length_app; simpl; lia|].
  intros c Hc. now apply deref_app_old.
Qed.

(** On a store that holds a tree, and on every store that extends it,
    the filter returns, as soon as the fuel covers the objects of the
    tree, a new map holding the tree the pure filter computes. *)
Lemma heap_filter_correct s term :
  (forall v n fp,
      Heap.repr s v n fp ->
      forall a m, v = Heap.VMap a -> n = Dir m ->
      forall fuel si,
        length fp <= fuel ->
        extends s si ->
        exists s' filteredMap fp',
          Heap.filterStructure toLowerCase fuel si a term
          = Some (s', filteredMap)
          /\ filtered_in toLowerCase term m si s' filteredMap fp')
  /\ (forall o m fp,
        Heap.repr_entries s o m fp ->
        forall fuel si filteredMap macc fpacc,
          length fp <= fuel ->
          extends s si ->
          length s <= filteredMap < length si ->
          Heap.repr_entries si (Heap.deref si filteredMap) macc fpacc ->
          (forall c, In c fpacc -> filteredMap < c) ->
          exists s' fpacc',
            fold_left
              (Heap.filterEntry toLowerCase
                 (fun s b => Heap.filterStructure toLowerCase fuel s b term)
                 term filteredMap)
              o (Some si) = Some s'
            /\ length si <= length s'
            /\ (forall c, c < filteredMap ->
                          Heap.deref s' c = Heap.deref si c)
            /\ Heap.repr_entries s' (Heap.deref s' filteredMap)
                 (fold_left
                    (filterEntry toLowerCase (filterNode toLowerCase) term)
                    m macc)
                 fpacc'
            /\ (forall c, In c fpacc' -> filteredMap < c)).
Proof.
  apply Heap.repr_mutual.
  - intros a m [=].
  - (* a map: a new object, then the loop over its entries *)
    intros a m fp Ha Hnotin _ IH a' m' [= <-] [= <-] fuel si Hfuel Hext.
    simpl in Hfuel. destruct fuel as [|fuel]; [lia|].
    cbn [Heap.filterStructure Heap.alloc].
    rewrite (proj2 Hext a Ha).
    destruct (IH fuel (si ++ [[]]) (length si) [] [])
      as (s' & fpacc & Hloop & Hl & Hs & R & Hf).
    + lia.
    + exact (extends_trans _ _ _ Hext (extends_alloc si)).
    + destruct Hext as [L _]. rewrite length_app. simpl. lia.
    + rewrite deref_alloc, deref_outside by lia. constructor.
    + intros c [].
    + rewrite length_app in Hl. simpl in Hl.
      exists s', (length si), (length si :: fpacc).
      split; [now rewrite Hloop|]. split; [|split; [split|]].
      * unfold filterStructure. cbn [filterNode].
        constructor; [lia| |assumption].
        intros Hin. apply Hf in Hin. lia.
      * lia.
      * intros c Hc. rewrite Hs by assumption. now apply deref_app_old.
      * intros c [<-|Hc]; [lia|]. apply Hf in Hc. lia.
  - (* no entry left *)
    intros fuel si fm macc fpacc _ _ _ Hacc Hfresh.
    exists si, fpacc. simpl. auto.
  - (* one entry, then the others *)
    intros key v n fp1 o m fp2 Hv IHv _ IHo _
           fuel si fm macc fpacc Hfuel Hext Hfm Hacc Hfresh.
    rewrite length_app in Hfuel.
    cbn [fold_left]. unfold Heap.filterEntry at 2, filterEntry at 2.
    cbn [fst snd].
    destruct Hext as [Ls Ss].
    pose proof (proj2 (repr_bound si) _ _ _ Hacc) as Hbacc.
    assert (Hnext : forall sj macc' fpacc',
               length si <= length sj ->
               (forall c, c < fm -> Heap.deref sj c = Heap.deref si c) ->
               Heap.repr_entries sj (Heap.deref sj fm) macc' fpacc' ->
               (forall c, In c fpacc' -> fm < c) ->
               exists s' fpacc'',
                 fold_left
                   (Heap.filterEntry toLowerCase
                      (fun s b =>
                         Heap.filterStructure toLowerCase fuel s b term)
                      term fm)
                   o (Some sj) = Some s'
                 /\ length si <= length s'
                 /\ (forall c, c < fm -> Heap.deref s' c = Heap.deref si c)
                 /\ Heap.repr_entries s' (Heap.deref s' fm)
                      (fold_left
                         (filterEntry toLowerCase (filterNode toLowerCase) term)
                         m macc')
                      fpacc''
                 /\ (forall c, In c fpacc'' -> fm < c)).
    { intros sj macc' fpacc' Hlj Hlow Hacc' Hfresh'.
      destruct (IHo fuel sj fm macc' fpacc')
        as (s' & fpacc'' & Hloop & Hl & Hs & R & Hf); try assumption.
      - lia.
      - split; [lia|]. intros c Hc. rewrite Hlow by lia. auto.
      - lia.
      - exists s', fpacc''. split; [assumption|]. split; [lia|].
        split; [|auto]. intros c Hc. rewrite Hs by assumption. auto. }
    assert (Hkeep : forall sj v' n' fpv,
               extends si sj ->
               Heap.repr sj v' n' fpv ->
               (forall c, In c fpv -> length si <= c) ->
               exists s' fpacc'',
                 fold_left
                   (Heap.filterEntry toLowerCase
                      (fun s b =>
                         Heap.filterStructure toLowerCase fuel s b term)
                      term fm)
                   o (Some (Heap.set_at sj fm key v')) = Some s'
                 /\ length si <= length s'
                 /\ (forall c, c < fm -> Heap.deref s' c = Heap.deref si c)
                 /\ Heap.repr_entries s' (Heap.deref s' fm)
                      (fold_left
                         (filterEntry toLowerCase (filterNode toLowerCase) term)
                         m (Map_set key n' macc))
                      fpacc''
                 /\ (forall c, In c fpacc'' -> fm < c)).
    { intros sj v' n' fpv Hsj Hv' Hfv.
      destruct (heap_filter_set si sj fm key v' n' fpv macc fpacc)
        as (fpacc' & R & Hf); try assumption; [lia|].
      destruct Hsj as [Lj Sj].
      apply (Hnext _ _ fpacc'); try assumption.
      - rewrite length_set_at. lia.
      - intros c Hc. rewrite deref_set_at_other by lia. apply Sj. lia. }
    inversion Hv as [|b msub fpb Hb Hnotin Hsub]; subst.
    + (* a file *)
      destruct (name_matches toLowerCase key term).
      * apply (Hkeep si Heap.VFile File []);
          [apply extends_refl|constructor|intros c []].
      * apply (Hnext si macc fpacc); auto.
    + (* a map: the recursive call *)
      destruct (IHv b msub eq_refl eq_refl fuel si)
        as (s'' & fb & fp'' & E & R'' & Hext'' & Hf'');
        [lia|split; assumption|].
      rewrite E, (repr_size _ _ _ _ R'').
      fold (filterStructure toLowerCase msub term).
      destruct (_ || _).
      * exact (Hkeep s'' (Heap.VMap fb) _ fp'' Hext'' R'' Hf'').
      * destruct Hext'' as [L'' S''].
        apply (Hnext s'' macc fpacc); try assumption.
        -- intros c Hc. apply S''. lia.
        -- rewrite S'' by lia.
           apply (proj2 (repr_frame si s'' L'') _ _ _ Hacc).
           intros c Hc. apply S''. auto.
Qed.

End Refinement.

(* ================================================================== *)
(** * The statements of the specification *)

(** ** Building *)

Lemma insertParts_at_file b part rest m :
  Map_get part m = Some File -> insertParts b (part :: rest) m = m.
Proof.
  intros G. rewrite insertParts_cons, G. cbn [or_new_map].
  rewrite act_File. now apply Map_set_same.
Qed.

(** C1, as the specification words it, fails: after [x] (blob) and
    [x/y] (blob) the key [x] does not hold a directory with the single
    child [y]. *)
Lemma later_entry_does_not_replace_a_file :
  Map_get "x" (generateStructure_map [blob_entry "x"; blob_entry "x/y"])
  <> Some (Dir [("y", File)]).
Proof. vm_compute. discriminate. Qed.

(** C1, amended: for the input [x] (blob), [x/y] (blob) the result holds
    the single key [x] as a file; the later entry [x/y] stops at that
    file and adds nothing. *)
Theorem file_on_the_way_stops_the_walk :
  generateStructure_map [blob_entry "x"; blob_entry "x/y"] = [("x", File)]
  /\ lookup_path ["x"] (generateStructure_map [blob_entry "x"; blob_entry "x/y"])
     = Some File
  /\ lookup_path ["x"; "y"] (generateStructure_map [blob_entry "x"; blob_entry "x/y"])
     = None
  /\ insertItem [("x", File)] (blob_entry "x/y") = [("x", File)].
Proof.
  split; [reflexivity|]. split; [reflexivity|]. split; [reflexivity|].
  unfold insertItem. now apply insertParts_at_file.
Qed.

(** C6: the two-entry scenario builds [a -> {b.txt, c -> {d.txt}}] and
    renders as the four lines of the specification, each ended by a
    line feed. *)
Theorem scenario_two_files :
  let entries := [blob_entry "a/b.txt"; blob_entry "a/c/d.txt"] in
  generateStructure_map entries
  = [("a", Dir [("b.txt", File); ("c", Dir [("d.txt", File)])])]
  /\ buildStructureString (generateStructure_map entries) ""
     = ("├── a" ++ JS.LF
        ++ "│   ├── b.txt" ++ JS.LF
        ++ "│   ├── c" ++ JS.LF
        ++ "│   │   ├── d.txt" ++ JS.LF)%string
  /\ generateStructure entries
     = buildStructureString (generateStructure_map entries) "".
Proof. repeat split. Qed.

(** C10: rendering the structure built from no entries gives the empty
    string, whatever the prefix. *)
Theorem render_of_empty_input :
  generateStructure [] = ""
  /\ forall prefix, buildStructureString (generateStructure_map []) prefix = "".
Proof. split; reflexivity. Qed.

(** C5: a child named [type] contributes no text, neither its own line
    nor anything of its subtree: the rendering is that of the map
    without this child, although the child is in the structure, as for
    a repository with a file [type] and a directory [src/type]. *)
Theorem render_skips_the_name_type :
  (forall (m1 m2 : DirectoryMap) (v : Node) (prefix : string),
      child_block prefix ("type", v) = ""
      /\ buildStructureString (m1 ++ ("type", v) :: m2) prefix
         = buildStructureString (m1 ++ m2) prefix)
  /\ (let entries :=
        [blob_entry "type"; blob_entry "src/type/x"; blob_entry "src/y"] in
      generateStructure_map entries
      = [("type", File);
         ("src", Dir [("type", Dir [("x", File)]); ("y", File)])]
      /\ generateStructure entries
         = ("├── src" ++ JS.LF ++ "│   ├── y" ++ JS.LF)%string).
Proof.
  split; [|split; reflexivity].
  intros m1 m2 v prefix. split; [reflexivity|].
  rewrite !buildStructureString_blocks, !map_app, !concat_all_app.
  reflexivity.
Qed.

Lemma generateStructure_map_snoc tree item :
  generateStructure_map (tree ++ [item])
  = insertItem (generateStructure_map tree) item.
Proof. unfold generateStructure_map. now rewrite fold_left_app. Qed.

(** The walk of an entry on whose way no file lies: missing ancestors
    are created, and at the end of the path a blob leaves a file, any
    other kind the node already there, or an empty directory. *)
Lemma node_at_act b : forall parts n,
  (forall q, proper_prefix q parts -> node_at q n <> Some File) ->
  node_at parts (act b parts n)
  = Some (if b then File else or_new_map (node_at parts n)).
Proof.
  induction parts as [|name rest IH]; intros n Hfree.
  - destruct b; reflexivity.
  - destruct n as [|m].
    { exfalso. apply (Hfree []); [now exists name, rest|reflexivity]. }
    cbn [act node_at]. rewrite Map_get_set_same.
    rewrite IH.
    + destruct b; [reflexivity|]. f_equal.
      destruct (Map_get name m) as [c|]; [reflexivity|].
      now destruct rest.
    + intros q Hq.
      assert (Hq' : proper_prefix (name :: q) (name :: rest))
        by (apply proper_prefix_cons; eauto).
      specialize (Hfree _ Hq'). cbn [node_at] in Hfree.
      destruct (Map_get name m) as [c|]; [exact Hfree|].
      apply node_at_empty_map.
Qed.

(** C4, as the specification words it, fails: a [tree] entry whose final
    segment already holds a file leaves the file there. *)
Lemma tree_entry_does_not_replace_a_file :
  ~ final_segment_gets_the_kind [blob_entry "x"] (tree_entry "x").
Proof.
  intros H. specialize (H [] "x" [("x", File)] eq_refl eq_refl).
  vm_compute in H. discriminate.
Qed.

(** C4, amended: when the walk of an entry reaches its final segment,
    that is, when no proper prefix of its path holds a file at the time
    the entry is processed (ancestors that are missing are created on
    the way), a blob leaves a file at that key, whatever was there; any
    other kind creates an empty directory when the key is absent and
    keeps the value already there otherwise, be it a directory or a
    file. *)
Theorem final_segment_of_an_entry :
  forall tree item,
    (forall q, proper_prefix q (parts_of item) ->
               lookup_path q (generateStructure_map tree) <> Some File) ->
    lookup_path (parts_of item) (generateStructure_map (tree ++ [item]))
    = Some (if is_blob item then File
            else match lookup_path (parts_of item)
                         (generateStructure_map tree) with
                 | Some existing => existing
                 | None => Dir []
                 end).
Proof.
  intros tree item Hfree.
  rewrite generateStructure_map_snoc. unfold insertItem, lookup_path.
  fold (parts_of item).
  rewrite <- act_Dir by apply split_slash_nonempty.
  exact (node_at_act (is_blob item) (parts_of item) _ Hfree).
Qed.

Lemma final_segment_of_an_entry_witness :
  lookup_path ["a"; "c"; "d.txt"]
    (generateStructure_map
       ([blob_entry "a/b.txt"] ++ [blob_entry "a/c/d.txt"]))
  = Some File.
Proof.
  apply (final_segment_of_an_entry
           [blob_entry "a/b.txt"] (blob_entry "a/c/d.txt")).
  intros q (name & rest & E).
  destruct q as [|q1 [|q2 [|q3 q]]]; vm_compute in E;
    [vm_compute; discriminate| | |];
    injection E; intros; subst; vm_compute; discriminate.
Defined.

(** C2, as the specification words it, fails: after [x] (blob) the
    entry [x/y] does not turn its ancestor [x] into a directory. *)
Lemma ancestor_may_be_a_file :
  ~ every_ancestor_is_a_directory [blob_entry "x"; blob_entry "x/y"].
Proof.
  intros H.
  specialize (H (blob_entry "x/y") ["x"] (or_intror (or_introl eq_refl))).
  assert (Hp : proper_prefix ["x"] (parts_of (blob_entry "x/y")))
    by (now exists "y", []).
  specialize (H Hp). vm_compute in H. discriminate.
Qed.

(** C2, amended: every proper path prefix of an entry's path is a
    directory of the result, listed or not, provided no blob of the
    input has a path that is a proper prefix of that entry's path. *)
Theorem ancestors_are_directories :
  forall tree item q,
    In item tree ->
    proper_prefix q (parts_of item) ->
    (forall other, In other tree -> is_blob other = true ->
                   ~ proper_prefix (parts_of other) (parts_of item)) ->
    is_dir (lookup_path q (generateStructure_map tree)) = true.
Proof.
  intros tree item q Hin Hq Hblob.
  unfold lookup_path. rewrite generateStructure_map_run.
  apply (run_ancestors q _ _ (is_blob item) (parts_of item)).
  - apply (in_map entry_of) in Hin. exact Hin.
  - exact Hq.
  - intros e' Hin' Hb. apply in_map_iff in Hin' as (other & <- & Hother).
    now apply Hblob.
  - intros q' _. apply node_at_empty_map.
Qed.

Lemma ancestors_are_directories_witness :
  is_dir (lookup_path ["a"; "c"]
            (generateStructure_map [blob_entry "a/b.txt"; blob_entry "a/c/d.txt"])) = true.
Proof.
  apply (ancestors_are_directories
           [blob_entry "a/b.txt"; blob_entry "a/c/d.txt"] (blob_entry "a/c/d.txt") ["a"; "c"]).
  - right. left. reflexivity.
  - now exists "d.txt", [].
  - intros other [<-|[<-|[]]] _ (name & rest & E); vm_compute in E;
      discriminate.
Defined.

(** C7: in the result the keys of every directory stand in the order in
    which the input first asks for them, later entries for the same key
    not moving it; the renderer writes the children of a map in the
    order of the map, which need not be alphabetical. *)
Theorem children_in_first_insertion_order :
  (forall tree q children,
      lookup_path q (generateStructure_map tree) = Some (Dir children) ->
      Map_keys children = first_occurrences (names_below q tree)
      /\ forall prefix,
           buildStructureString children prefix
           = concat_all (List.map (child_block prefix) children))
  /\ generateStructure [blob_entry "b"; blob_entry "a"; blob_entry "b"]
     = ("├── b" ++ JS.LF ++ "├── a" ++ JS.LF)%string.
Proof.
  split; [|reflexivity].
  intros tree q children H. split.
  - unfold lookup_path in H. rewrite generateStructure_map_run in H.
    rewrite (run_keys_at _ _ _ _ H), keys_at_empty_map.
    now rewrite first_names_entries, add_keys_from_empty.
  - intros prefix. apply buildStructureString_blocks.
Qed.

Lemma children_in_first_insertion_order_witness :
  Map_keys [("z", File); ("b", Dir [("k", File)]); ("m", File)]
  = first_occurrences
      (names_below ["a"]
         [blob_entry "a/z"; blob_entry "a/b/k"; blob_entry "a/m"; tree_entry "a/b"; blob_entry "c"]).
Proof.
  apply (proj1 children_in_first_insertion_order
           [blob_entry "a/z"; blob_entry "a/b/k"; blob_entry "a/m"; tree_entry "a/b"; blob_entry "c"]
           ["a"]).
  reflexivity.
Defined.

(** ** Filtering *)

Section FilterStatements.

Variable toLowerCase : string -> string.

Lemma includes_empty s : JS.includes s "" = true.
Proof. destruct s; reflexivity. Qed.

(** A file of the filtered map is a file of the map whose own name
    matches, and conversely. *)
Lemma filterStructure_file term p : forall m,
  Map_wf m = true ->
  lookup_path p (filterStructure toLowerCase m term) = Some File
  <-> lookup_path p m = Some File
      /\ name_matches toLowerCase (last p "") term = true.
Proof.
  unfold lookup_path.
  induction p as [|k p IH]; intros m Hwf.
  - simpl. split; [discriminate|intros [? _]; discriminate].
  - pose proof (proj1 (Map_wf_iff m) Hwf) as [Hd Hall].
    rewrite filterStructure_flat by assumption.
    cbn [node_at]. rewrite Map_get_flat_keep by assumption.
    destruct (Map_get k m) as [[|sub]|] eqn:G.
    + unfold keep. cbn [fst snd].
      destruct p as [|k' p].
      * simpl. destruct (name_matches toLowerCase k term); simpl.
        -- rewrite String.eqb_refl. tauto.
        -- split; [discriminate|intros [_ ?]; discriminate].
      * destruct (name_matches toLowerCase k term); simpl.
        -- rewrite String.eqb_refl. simpl.
           split; [discriminate|intros [? _]; discriminate].
        -- split; [discriminate|intros [? _]; discriminate].
    + assert (Hsub : Map_wf sub = true)
        by (apply (Map_wf_get k (Dir sub) m); assumption).
      specialize (IH sub Hsub).
      assert (Hlast : p <> [] -> last (k :: p) "" = last p "")
        by (destruct p; [congruence|reflexivity]).
      unfold keep. cbn [fst snd].
      destruct (Nat.ltb 0 (Map_size (filterStructure toLowerCase sub term))
                || name_matches toLowerCase k term) eqn:K.
      * cbn [Map_get]. rewrite String.eqb_refl.
        destruct p as [|k' p].
        -- simpl. split; [discriminate|intros [? _]; discriminate].
        -- rewrite Hlast by discriminate. exact IH.
      * cbn [Map_get]. split; [discriminate|]. intros [Hf Hm].
        apply orb_false_iff in K as [K _].
        destruct p as [|k' p]; [discriminate|].
        rewrite Hlast in Hm by discriminate.
        destruct (filterStructure toLowerCase sub term) eqn:F;
          [|discriminate].
        pose proof (proj2 IH (conj Hf Hm)) as Habs. discriminate Habs.
    + split; [discriminate|intros [? _]; discriminate].
Qed.

(** C3, amended: the filter applied to the built structure removes a
    leaf exactly when the leaf's own name does not contain the term,
    case-insensitively; the names of the directories above it play no
    part. *)
Theorem filter_keeps_leaves_by_own_name :
  forall tree term p,
    lookup_path p
      (filterStructure toLowerCase (generateStructure_map tree) term)
    = Some File
    <-> lookup_path p (generateStructure_map tree) = Some File
        /\ name_matches toLowerCase (last p "") term = true.
Proof.
  intros tree term p. apply filterStructure_file.
  apply generateStructure_map_wf.
Qed.

Hypothesis toLowerCase_empty : toLowerCase "" = "".

Lemma name_matches_empty_term k : name_matches toLowerCase k "" = true.
Proof.
  unfold name_matches. rewrite toLowerCase_empty. apply includes_empty.
Qed.

Lemma flat_map_singleton (m : DirectoryMap) (f : string * Node -> DirectoryMap) :
  (forall kv, In kv m -> f kv = [kv]) -> flat_map f m = m.
Proof.
  induction m as [|kv m IH]; intros H; simpl; [reflexivity|].
  rewrite (H kv) by now left. simpl. f_equal. apply IH.
  intros kv' Hin. apply H. now right.
Qed.

Lemma filterNode_empty_term n :
  Node_wf n = true ->
  forall m, n = Dir m -> filterStructure toLowerCase m "" = m.
Proof.
  induction n as [|map IH] using Node_nested_ind; [discriminate|].
  intros Hwf m [= <-].
  pose proof (proj1 (Map_wf_iff map) Hwf) as [Hd Hall].
  rewrite filterStructure_flat by assumption.
  apply flat_map_singleton. intros [k v] Hin.
  unfold keep. cbn [fst snd]. rewrite name_matches_empty_term.
  destruct v as [|sub]; [reflexivity|].
  rewrite orb_true_r.
  now rewrite (IH k (Dir sub) Hin (Hall _ _ Hin) sub eq_refl).
Qed.

(** C9: with the empty search term the filter returns a map equal to
    its argument, every file and every directory kept with its whole
    subtree. *)
Theorem filter_with_empty_term_is_identity :
  forall m, Map_wf m = true -> filterStructure toLowerCase m "" = m.
Proof.
  intros m Hwf. now apply (filterNode_empty_term (Dir m)).
Qed.

End FilterStatements.

(** C3, as the specification words it, fails: with the term [src] the
    leaf [src/main.ts] is removed although the name of its ancestor
    directory contains the term. *)
Lemma ancestor_match_does_not_keep_a_leaf :
  ~ removed_iff_no_name_on_path_matches JS.ascii_toLowerCase
      [blob_entry "src/main.ts"] "src" ["src"; "main.ts"].
Proof.
  intros H. specialize (H eq_refl). destruct H as [H _].
  assert (Hrem : lookup_path ["src"; "main.ts"]
                   (filterStructure JS.ascii_toLowerCase
                      (generateStructure_map [blob_entry "src/main.ts"]) "src")
                 <> Some File) by (vm_compute; discriminate).
  specialize (H Hrem). vm_compute in H. discriminate.
Qed.

Lemma filter_with_empty_term_is_identity_witness :
  filterStructure JS.ascii_toLowerCase
    [("README.md", File); ("src", Dir [("Main.ts", File); ("lib", Dir [])])]
    ""
  = [("README.md", File); ("src", Dir [("Main.ts", File); ("lib", Dir [])])].
Proof.
  apply (filter_with_empty_term_is_identity JS.ascii_toLowerCase);
    reflexivity.
Defined.

(** ** Termination *)

(** The fuel is not for show: on a map that holds itself the renderer
    does not return, whatever the fuel. *)
Lemma render_on_a_cycle fuel prefix :
  Heap.buildStructureString fuel [[("loop", Heap.VMap 0)]] 0 prefix = None.
Proof.
  revert prefix. induction fuel as [|fuel IH]; intros prefix; [reflexivity|].
  cbn [Heap.buildStructureString Heap.deref nth fold_left].
  unfold Heap.renderEntry. cbn [fst snd]. simpl String.eqb.
  now rewrite IH.
Qed.

(** C8: the builder returns on every input, and the store it leaves
    holds a finite tree, every object on one path only: the tree the
    pure builder computes.  On every store that holds a tree, the
    renderer and the filter return once the fuel covers the objects of
    the tree, for every prefix and every search term, with the results
    of the pure renderer and the pure filter; so they do on the store
    the builder leaves. *)
Theorem build_render_filter_return :
  forall toLowerCase : string -> string,
    (forall tree, exists fp,
        Heap.repr (Heap.generateStructure_store tree)
          (Heap.VMap Heap.structureMap) (Dir (generateStructure_map tree)) fp)
    /\ (forall s a m fp,
          Heap.repr s (Heap.VMap a) (Dir m) fp ->
          forall fuel,
            length fp <= fuel ->
            (forall prefix,
                Heap.buildStructureString fuel s a prefix
                = Some (buildStructureString m prefix))
            /\ (forall term, exists s' filteredMap fp',
                   Heap.filterStructure toLowerCase fuel s a term
                   = Some (s', filteredMap)
                   /\ filtered_in toLowerCase term m s s' filteredMap fp'))
    /\ (forall tree, exists enough,
          forall fuel,
            enough <= fuel ->
            let s := Heap.generateStructure_store tree in
            let m := generateStructure_map tree in
            (forall prefix,
                Heap.buildStructureString fuel s Heap.structureMap prefix
                = Some (buildStructureString m prefix))
            /\ (forall term, exists s' filteredMap fp',
                   Heap.filterStructure toLowerCase fuel s Heap.structureMap
                     term
                   = Some (s', filteredMap)
                   /\ filtered_in toLowerCase term m s s' filteredMap fp')).
Proof.
  intros toLowerCase.
  assert (Htree : forall s a m fp,
             Heap.repr s (Heap.VMap a) (Dir m) fp ->
             forall fuel,
               length fp <= fuel ->
               (forall prefix,
                   Heap.buildStructureString fuel s a prefix
                   = Some (buildStructureString m prefix))
               /\ (forall term, exists s' filteredMap fp',
                      Heap.filterStructure toLowerCase fuel s a term
                      = Some (s', filteredMap)
                      /\ filtered_in toLowerCase term m s s' filteredMap fp')).
  { intros s a m fp Hrepr fuel Hfuel. split.
    - intros prefix.
      exact (proj1 (heap_render_correct s) _ _ _ Hrepr a eq_refl
               fuel prefix Hfuel).
    - intros term.
      exact (proj1 (heap_filter_correct toLowerCase s term) _ _ _ Hrepr
               a m eq_refl eq_refl fuel s Hfuel (extends_refl s)). }
  split; [exact generateStructure_store_repr|]. split; [exact Htree|].
  intros tree. destruct (generateStructure_store_repr tree) as [fp Hrepr].
  exists (length fp). intros fuel Hfuel s m.
  exact (Htree _ _ _ _ Hrepr fuel Hfuel).
Qed.

Lemma build_render_filter_return_witness :
  Heap.buildStructureString 2
    [[("a", Heap.VMap 1); ("x", Heap.VFile)]; [("b.txt", Heap.VFile)]] 0 ""
  = Some (buildStructureString [("a", Dir [("b.txt", File)]); ("x", File)] "").
Proof.
  refine (proj1 (proj1 (proj2 (build_render_filter_return JS.ascii_toLowerCase))
                   _ 0 _ [0; 1] _ 2 _) "").
  - constructor; [simpl; lia|simpl; intros [H|[]]; discriminate|].
    apply (Heap.repr_cons _ "a" (Heap.VMap 1) (Dir [("b.txt", File)]) [1]
             [("x", Heap.VFile)] [("x", File)] []).
    + constructor; [simpl; lia|intros []|].
      apply (Heap.repr_cons _ "b.txt" Heap.VFile File [] [] [] []);
        [constructor|constructor|intros c []].
    + apply (Heap.repr_cons _ "x" Heap.VFile File [] [] [] []);
        [constructor|constructor|intros c []].
    + intros c _ [].
  - simpl. lia.
Defined.

(* ================================================================== *)
(** * Further properties of the two files *)

(** ** Patterns: the matcher decides the language *)

Section RegexFacts.

Import Regex.

Lemma append_empty_inv (s1 s2 : string) :
  (s1 ++ s2)%string = EmptyString -> s1 = EmptyString /\ s2 = EmptyString.
Proof. destruct s1; simpl; [auto|discriminate]. Qed.

Lemma nullable_Matches r : nullable r = true -> Matches r EmptyString.
Proof.
  induction r as [| |p|r1 IH1 r2 IH2|r1 IH1 r2 IH2|r IH]; simpl;
    try discriminate.
  - constructor.
  - intros H. apply andb_true_iff in H as [H1 H2].
    change EmptyString with (EmptyString ++ EmptyString)%string.
    constructor; auto.
  - intros H. apply orb_true_iff in H as [H|H];
      [apply MAltL|apply MAltR]; auto.
  - constructor.
Qed.

Lemma Matches_nullable r s :
  Matches r s -> s = EmptyString -> nullable r = true.
Proof.
  induction 1 as [|p c Hp|r1 r2 s1 s2 H1 IH1 H2 IH2|r1 r2 s H IH|r1 r2 s H IH
                  |r|r s1 s2 H1 IH1 H2 IH2]; intros E; simpl; auto.
  - discriminate.
  - apply append_empty_inv in E as [-> ->]. now rewrite IH1, IH2.
  - now rewrite IH.
  - rewrite IH by assumption. apply orb_true_r.
Qed.

Lemma deriv_Matches c r : forall s,
  Matches (deriv c r) s -> Matches r (String c s).
Proof.
  induction r as [| |p|r1 IH1 r2 IH2|r1 IH1 r2 IH2|r IH]; intros s H;
    simpl in H.
  - inversion H.
  - inversion H.
  - destruct (p c) eqn:Hp; inversion H; subst. now constructor.
  - assert (Hseq : forall s, Matches (Seq (deriv c r1) r2) s ->
                             Matches (Seq r1 r2) (String c s)).
    { intros s0 H0. inversion H0 as [| |? ? s1 s2 Ha Hb| | | |]; subst.
      change (String c (s1 ++ s2)) with (String c s1 ++ s2)%string.
      constructor; auto. }
    destruct (nullable r1) eqn:N; [|auto].
    inversion H; subst; [auto|].
    change (String c s) with (EmptyString ++ String c s)%string.
    constructor; [now apply nullable_Matches|auto].
  - inversion H; subst; [apply MAltL|apply MAltR]; auto.
  - inversion H as [| |? ? s1 s2 Ha Hb| | | |]; subst.
    change (String c (s1 ++ s2)) with (String c s1 ++ s2)%string.
    constructor; auto.
Qed.

Lemma Matches_deriv r s :
  Matches r s -> forall c s', s = String c s' -> Matches (deriv c r) s'.
Proof.
  induction 1 as [|p c0 Hp|r1 r2 s1 s2 H1 IH1 H2 IH2|r1 r2 s H IH|r1 r2 s H IH
                  |r|r s1 s2 H1 IH1 H2 IH2]; intros c s' E; simpl.
  - discriminate.
  - injection E as -> <-. rewrite Hp. constructor.
  - destruct s1 as [|c1 s1].
    + simpl in E. subst s2.
      rewrite (Matches_nullable _ _ H1 eq_refl). apply MAltR. now apply IH2.
    + injection E as -> <-.
      assert (Hd : Matches (Seq (deriv c r1) r2) (s1 ++ s2))
        by (constructor; [now apply IH1|assumption]).
      destruct (nullable r1); [now apply MAltL|assumption].
  - apply MAltL. now apply IH.
  - apply MAltR. now apply IH.
  - discriminate.
  - destruct s1 as [|c1 s1].
    + simpl in E. now apply IH2.
    + injection E as -> <-. constructor; [now apply IH1|assumption].
Qed.

(** [test] accepts exactly the texts of the language. *)
Lemma test_spec s : forall r, test r s = true <-> Matches r s.
Proof.
  induction s as [|c s IH]; intros r; simpl.
  - split; [apply nullable_Matches|]. intros H.
    now apply (Matches_nullable r EmptyString).
  - rewrite IH. split; [apply deriv_Matches|].
    intros H. now apply (Matches_deriv r (String c s)).
Qed.

(** The language of the derived forms. *)
Lemma Matches_Seq r1 r2 s :
  Matches (Seq r1 r2) s
  <-> exists s1 s2, s = (s1 ++ s2)%string /\ Matches r1 s1 /\ Matches r2 s2.
Proof.
  split.
  - intros H. inversion H; subst. eauto.
  - intros (s1 & s2 & -> & H1 & H2). now constructor.
Qed.

Lemma Matches_Chr c s : Matches (Chr c) s <-> s = String c EmptyString.
Proof.
  unfold Chr. split.
  - intros H. inversion H as [|p c' Hp| | | | |]; subst.
    apply Ascii.eqb_eq in Hp. now subst.
  - intros ->. constructor. apply Ascii.eqb_refl.
Qed.

Lemma Matches_Str t s : Matches (Str t) s <-> s = t.
Proof.
  revert s. induction t as [|c t IH]; intros s; simpl.
  - split; [intros H; now inversion H|intros ->; constructor].
  - rewrite Matches_Seq. split.
    + intros (s1 & s2 & -> & H1 & H2).
      apply Matches_Chr in H1. apply IH in H2. now subst.
    + intros ->. exists (String c EmptyString), t.
      split; [reflexivity|]. split; [now apply Matches_Chr|now apply IH].
Qed.

Lemma Matches_Opt_Chr c s :
  Matches (Opt (Chr c)) s <-> s = EmptyString \/ s = String c EmptyString.
Proof.
  unfold Opt. split.
  - intros H. inversion H; subst.
    + right. now apply Matches_Chr.
    + left. match goal with H' : Matches Eps _ |- _ => now inversion H' end.
  - intros [->| ->]; [apply MAltR; constructor|apply MAltL].
    now apply Matches_Chr.
Qed.

Lemma Matches_Star_Class p s :
  Matches (Star (Class p)) s <-> all_chars p s = true.
Proof.
  split.
  - intros H. remember (Star (Class p)) as r eqn:Er.
    induction H as [| | | | | |r s1 s2 H1 _ H2 IH2]; try discriminate.
    + reflexivity.
    + injection Er as ->. inversion H1; subst. simpl.
      rewrite IH2 by reflexivity. now rewrite andb_true_r.
  - induction s as [|c s IH]; simpl; [intros _; constructor|].
    intros H. apply andb_true_iff in H as [Hc Hs].
    change (String c s) with (String c EmptyString ++ s)%string.
    constructor; [now constructor|auto].
Qed.

Lemma Matches_Plus_Class p s :
  Matches (Plus (Class p)) s <-> s <> EmptyString /\ all_chars p s = true.
Proof.
  unfold Plus. rewrite Matches_Seq. split.
  - intros (s1 & s2 & -> & H1 & H2). inversion H1; subst.
    apply Matches_Star_Class in H2. simpl. rewrite H2.
    split; [discriminate|]. now rewrite andb_true_r.
  - intros [Hne H]. destruct s as [|c s]; [congruence|].
    simpl in H. apply andb_true_iff in H as [Hc Hs].
    exists (String c EmptyString), s. split; [reflexivity|].
    split; [now constructor|now apply Matches_Star_Class].
Qed.

End RegexFacts.

(** ** [validateUrl] and the owner and repository of a URL *)

Section UrlFacts.

Import Regex.

Lemma split_slash_app a b :
  JS.split_slash (a ++ String "/" b)
  = JS.split_slash a ++ JS.split_slash b.
Proof.
  induction a as [|c a IH]; [reflexivity|].
  cbn [String.append JS.split_slash]. rewrite IH.
  destruct (Ascii.eqb c "/"); [reflexivity|].
  pose proof (split_slash_nonempty a) as Hne.
  destruct (JS.split_slash a); [congruence|reflexivity].
Qed.

Lemma split_slash_one s :
  all_chars (fun c => negb (Ascii.eqb c "/")) s = true ->
  JS.split_slash s = [s].
Proof.
  induction s as [|c s IH]; [reflexivity|]. simpl.
  intros H. apply andb_true_iff in H as [Hc Hs].
  apply negb_true_iff in Hc. now rewrite Hc, IH.
Qed.

Lemma all_chars_impl (p q : ascii -> bool) s :
  (forall c, p c = true -> q c = true) ->
  all_chars p s = true -> all_chars q s = true.
Proof.
  intros Hpq. induction s as [|c s IH]; simpl; [auto|].
  intros H. apply andb_true_iff in H as [Hc Hs].
  now rewrite (Hpq c Hc), IH.
Qed.

Lemma word_dot_dash_no_slash c :
  word_dot_dash c = true -> negb (Ascii.eqb c "/") = true.
Proof.
  destruct (Ascii.eqb c "/") eqn:E; [|reflexivity].
  apply Ascii.eqb_eq in E. subst c. discriminate.
Qed.

Lemma word_or_dash_no_slash c :
  word_or_dash c = true -> negb (Ascii.eqb c "/") = true.
Proof.
  destruct (Ascii.eqb c "/") eqn:E; [|reflexivity].
  apply Ascii.eqb_eq in E. subst c. discriminate.
Qed.

Lemma slice_last2_app (l : list string) a b :
  slice_last2 (l ++ [a; b]) = [a; b].
Proof.
  unfold slice_last2. rewrite length_app. simpl.
  replace (length l + 2 - 2) with (length l) by lia.
  induction l as [|x l IH]; [reflexivity|exact IH].
Qed.

(** The last two segments of a text with two slash-free segments at
    its end. *)
Lemma owner_repo_app base a b :
  all_chars (fun c => negb (Ascii.eqb c "/")) a = true ->
  all_chars (fun c => negb (Ascii.eqb c "/")) b = true ->
  owner_repo (base ++ String "/" (a ++ String "/" b)) = (Some a, Some b).
Proof.
  intros Ha Hb. unfold owner_repo.
  rewrite !split_slash_app, (split_slash_one a Ha), (split_slash_one b Hb).
  change ([a] ++ [b]) with [a; b]. now rewrite slice_last2_app.
Qed.

Lemma validateUrl_shape scheme owner repo tail :
  scheme_ok scheme -> owner_name_ok owner -> repo_name_ok repo ->
  tail = EmptyString \/ tail = "/" ->
  validateUrl (github_url scheme owner repo ++ tail) = true.
Proof.
  intros Hs Ho Hr Ht. unfold validateUrl, githubUrlPattern, github_url.
  apply test_spec. apply Matches_Plus_Class in Ho, Hr.
  apply Matches_Seq. exists "http"%string.
  exists ((if String.eqb scheme "https" then "s" else "")
          ++ "://github.com/" ++ owner ++ "/" ++ repo ++ tail)%string.
  split; [|split; [now apply Matches_Str|]].
  - rewrite !append_assoc. destruct Hs as [->| ->]; reflexivity.
  - apply MSeq.
    + apply Matches_Opt_Chr. destruct Hs as [->| ->]; simpl; auto.
    + change ("://github.com/" ++ owner ++ "/" ++ repo ++ tail)%string
        with ("://github.com/" ++ (owner ++ (String "/" EmptyString
                                  ++ (repo ++ tail))))%string.
      apply MSeq; [now apply Matches_Str|].
      apply MSeq; [assumption|].
      apply MSeq; [now apply Matches_Chr|].
      apply MSeq; [assumption|]. now apply Matches_Opt_Chr.
Qed.

Lemma validateUrl_inv url :
  validateUrl url = true ->
  exists scheme owner repo tail,
    url = (github_url scheme owner repo ++ tail)%string
    /\ scheme_ok scheme
    /\ owner_name_ok owner
    /\ repo_name_ok repo
    /\ (tail = EmptyString \/ tail = "/").
Proof.
  unfold validateUrl, githubUrlPattern, github_url.
  rewrite test_spec. intros H.
  apply Matches_Seq in H as (h & s1 & -> & Hh & H).
  apply Matches_Seq in H as (o & s2 & -> & Ho & H).
  apply Matches_Seq in H as (g & s3 & -> & Hg & H).
  apply Matches_Seq in H as (owner & s4 & -> & Howner & H).
  apply Matches_Seq in H as (sl & s5 & -> & Hsl & H).
  apply Matches_Seq in H as (repo & tail & -> & Hrepo & Htail).
  apply Matches_Str in Hh, Hg. apply Matches_Chr in Hsl. subst h g sl.
  apply Matches_Opt_Chr in Ho, Htail.
  apply Matches_Plus_Class in Howner, Hrepo.
  exists ("http" ++ o)%string, owner, repo, tail.
  split; [|split; [|auto]].
  - rewrite !append_assoc. reflexivity.
  - destruct Ho as [->| ->]; [left|right]; reflexivity.
Qed.

Lemma owner_repo_github_url scheme owner repo :
  owner_name_ok owner -> repo_name_ok repo ->
  owner_repo (github_url scheme owner repo) = (Some owner, Some repo).
Proof.
  intros Ho Hr. unfold github_url.
  change (scheme ++ "://github.com/" ++ owner ++ "/" ++ repo)%string
    with (scheme ++ ("://github.com"
                     ++ String "/" (owner ++ String "/" repo)))%string.
  rewrite <- append_assoc. apply owner_repo_app.
  - apply (all_chars_impl word_or_dash); [apply word_or_dash_no_slash|].
    apply Ho.
  - apply (all_chars_impl word_dot_dash); [apply word_dot_dash_no_slash|].
    apply Hr.
Qed.

Lemma owner_repo_github_url_slash scheme owner repo :
  repo_name_ok repo ->
  owner_repo (github_url scheme owner repo ++ "/") = (Some repo, Some "").
Proof.
  intros Hr. unfold github_url.
  replace ((scheme ++ "://github.com/" ++ owner ++ "/" ++ repo) ++ "/")%string
    with ((scheme ++ "://github.com/" ++ owner)
          ++ String "/" (repo ++ String "/" EmptyString))%string
    by (rewrite !append_assoc; reflexivity).
  apply owner_repo_app; [|reflexivity].
  apply (all_chars_impl word_dot_dash); [apply word_dot_dash_no_slash|].
  apply Hr.
Qed.

(** X1.  [validateUrl] accepts exactly the texts
    [http://github.com/<owner>/<repo>], with [https] for [http] or a
    slash at the end if one likes, where [<owner>] is a non-empty run of
    letters, digits, [_] and [-], and [<repo>] one of these and [.]. *)
Theorem validateUrl_accepts :
  forall url,
    validateUrl url = true
    <-> exists scheme owner repo tail,
          url = (github_url scheme owner repo ++ tail)%string
          /\ scheme_ok scheme
          /\ owner_name_ok owner
          /\ repo_name_ok repo
          /\ (tail = EmptyString \/ tail = "/").
Proof.
  intros url. split; [apply validateUrl_inv|].
  intros (scheme & owner & repo & tail & -> & Hs & Ho & Hr & Ht).
  now apply validateUrl_shape.
Qed.

(** X2.  For a URL of that shape without the final slash,
    [fetchProjectStructure] takes from it the owner and the repository
    written in it. *)
Theorem owner_repo_of_valid_url :
  forall scheme owner repo,
    scheme_ok scheme -> owner_name_ok owner -> repo_name_ok repo ->
    validateUrl (github_url scheme owner repo) = true
    /\ owner_repo (github_url scheme owner repo) = (Some owner, Some repo).
Proof.
  intros scheme owner repo Hs Ho Hr. split.
  - rewrite <- (append_empty_r (github_url scheme owner repo)).
    apply validateUrl_shape; auto.
  - now apply owner_repo_github_url.
Qed.

Lemma owner_repo_of_valid_url_witness :
  validateUrl "https://github.com/rescenic/repotree" = true
  /\ owner_repo "https://github.com/rescenic/repotree"
     = (Some "rescenic", Some "repotree").
Proof.
  apply (owner_repo_of_valid_url "https" "rescenic" "repotree").
  - right. reflexivity.
  - split; [discriminate|reflexivity].
  - split; [discriminate|reflexivity].
Defined.

(** X3.  A URL of that shape with the final slash passes [validateUrl]
    too, but what [fetchProjectStructure] takes from it is the
    repository in the place of the owner and the empty text in the
    place of the repository. *)
Theorem owner_repo_with_final_slash :
  forall scheme owner repo,
    scheme_ok scheme -> owner_name_ok owner -> repo_name_ok repo ->
    validateUrl (github_url scheme owner repo ++ "/") = true
    /\ owner_repo (github_url scheme owner repo ++ "/")
       = (Some repo, Some "").
Proof.
  intros scheme owner repo Hs Ho Hr. split.
  - apply validateUrl_shape; auto.
  - now apply owner_repo_github_url_slash.
Qed.

Lemma owner_repo_with_final_slash_witness :
  validateUrl "https://github.com/rescenic/repotree/" = true
  /\ owner_repo "https://github.com/rescenic/repotree/"
     = (Some "repotree", Some "").
Proof.
  apply (owner_repo_with_final_slash "https" "rescenic" "repotree").
  - right. reflexivity.
  - split; [discriminate|reflexivity].
  - split; [discriminate|reflexivity].
Defined.

End UrlFacts.

(** ** The builder: repeated entries, and where nodes come from *)

Section BuilderFacts.

Implicit Types (m : DirectoryMap) (n : Node) (es : list entry)
               (p q : list string).

Lemma act_idempotent b p : forall n, act b p (act b p n) = act b p n.
Proof.
  induction p as [|k rest IH]; intros n.
  - simpl. now destruct b.
  - destruct n as [|m]; [reflexivity|]. cbn [act].
    rewrite Map_get_set_same. cbn [or_new_map].
    now rewrite IH, Map_set_set.
Qed.

(** An entry that changes nothing now changes nothing later either. *)
Lemma act_absorbed b p : forall b' p' n,
  act b p n = n -> act b p (act b' p' n) = act b' p' n.
Proof.
  induction p as [|k rest IH]; intros b' p' n H.
  - simpl in *. destruct b; [|reflexivity]. subst n. now rewrite act_File.
  - destruct n as [|m]; [now rewrite !act_File|].
    cbn [act] in H. injection H as H.
    assert (G : Map_get k m
                = Some (act b rest (or_new_map (Map_get k m))))
      by (rewrite <- H at 1; apply Map_get_set_same).
    set (c := act b rest (or_new_map (Map_get k m))) in *.
    assert (Hc : act b rest c = c).
    { unfold c at 2. rewrite G. cbn [or_new_map]. reflexivity. }
    destruct p' as [|k' rest'].
    + simpl. destruct b'; [reflexivity|]. cbn [act]. fold c. now rewrite H.
    + cbn [act]. f_equal. apply Map_set_same.
      destruct (String.eqb k' k) eqn:E.
      * apply String.eqb_eq in E. subst k'.
        rewrite Map_get_set_same. cbn [or_new_map]. f_equal.
        rewrite G. cbn [or_new_map]. symmetry. now apply IH.
      * apply String.eqb_neq in E.
        rewrite Map_get_set_other by congruence.
        rewrite G. cbn [or_new_map]. now rewrite Hc.
Qed.

Lemma run_absorbed b p es : forall n,
  act b p n = n -> act b p (run es n) = run es n.
Proof.
  induction es as [|[b' p'] es IH]; intros n H; [exact H|].
  rewrite run_cons. apply IH. cbn [fst snd]. now apply act_absorbed.
Qed.

Lemma run_repeated b p es : forall n,
  In (b, p) es -> act b p (run es n) = run es n.
Proof.
  induction es as [|e es IH]; intros n Hin; [destruct Hin|].
  rewrite run_cons. destruct Hin as [->|Hin].
  - cbn [fst snd]. apply run_absorbed, act_idempotent.
  - now apply IH.
Qed.

Lemma insertItem_act m item :
  Dir (insertItem m item) = act (is_blob item) (parts_of item) (Dir m).
Proof.
  unfold insertItem, parts_of. symmetry. apply act_Dir, split_slash_nonempty.
Qed.

Lemma insertItem_repeated tree item :
  In item tree ->
  insertItem (generateStructure_map tree) item = generateStructure_map tree.
Proof.
  intros Hin.
  assert (H : Dir (insertItem (generateStructure_map tree) item)
              = Dir (generateStructure_map tree)).
  { rewrite insertItem_act, generateStructure_map_run.
    apply run_repeated. apply (in_map entry_of) in Hin. exact Hin. }
  now injection H.
Qed.

Lemma run_File es : run es File = File.
Proof.
  induction es as [|e es IH]; [reflexivity|].
  now rewrite run_cons, act_File.
Qed.

Lemma run_File_inv es : forall n,
  run es n = File -> n = File \/ In (true, []) es.
Proof.
  induction es as [|[b p] es IH]; intros n H; [now left|].
  rewrite run_cons in H. cbn [fst snd] in H.
  destruct (IH _ H) as [Hact|Hin]; [|right; now right].
  destruct p as [|k rest].
  - simpl in Hact. destruct b; [right; now left|now left].
  - destruct n as [|m]; [now left|discriminate].
Qed.

Lemma run_root_blob es : forall n, In (true, []) es -> run es n = File.
Proof.
  induction es as [|e es IH]; intros n Hin; [destruct Hin|].
  rewrite run_cons. destruct Hin as [->|Hin].
  - apply run_File.
  - now apply IH.
Qed.

(** A file of the result was there before or is the path of a blob. *)
Lemma run_File_origin p : forall es n,
  node_at p (run es n) = Some File ->
  node_at p n = Some File \/ In (true, p) es.
Proof.
  induction p as [|k q IH]; intros es n H.
  - simpl in H. injection H as H.
    destruct (run_File_inv _ _ H) as [->|Hin]; auto.
  - destruct (run es n) as [|m'] eqn:Hr; [discriminate|].
    destruct (run_Dir_inv _ _ _ Hr) as [[m ->] Hall].
    destruct (run_Dir es m Hall) as (m'' & Hrun & _ & Hget).
    rewrite Hrun in Hr. injection Hr as ->.
    cbn [node_at] in H |- *. rewrite Hget in H.
    destruct (below k es) as [|e0 es0] eqn:Eb; [now left|].
    rewrite <- Eb in *.
    destruct (IH _ _ H) as [Hn|Hin].
    + left. destruct (Map_get k m); [exact Hn|].
      now destruct (node_at_empty_map q).
    + right. now apply below_In.
Qed.

(** The path of a blob ends as a file, as long as no blob of the input
    sits on a proper prefix of that path and no file stood there to
    begin with. *)
Lemma run_blob p : forall es n,
  In (true, p) es ->
  (forall e', In e' es -> fst e' = true -> ~ proper_prefix (snd e') p) ->
  (forall q', proper_prefix q' p -> node_at q' n <> Some File) ->
  node_at p (run es n) = Some File.
Proof.
  induction p as [|k q IH]; intros es n Hin Hblob Hfile.
  - simpl. f_equal. now apply run_root_blob.
  - assert (H0 : proper_prefix [] (k :: q)) by (now exists k, q).
    destruct n as [|m]; [now destruct (Hfile [] H0)|].
    assert (Hall : forallb (fun e => negb (root_blob e)) es = true).
    { apply forallb_forall. intros [b' p'] Hin'. unfold root_blob. simpl.
      destruct b'; [|reflexivity]. destruct p'; [|reflexivity].
      now destruct (Hblob _ Hin' eq_refl). }
    destruct (run_Dir es m Hall) as (m' & Hrun & _ & Hget).
    rewrite Hrun. cbn [node_at]. rewrite Hget.
    pose proof (In_below _ _ _ _ Hin) as Hin1.
    destruct (below k es) as [|e0 es0] eqn:Eb; [easy|]. rewrite <- Eb in *.
    apply IH; [assumption| |].
    + intros [b' p'] Hin' Hb' Hpp. simpl in *. subst b'.
      apply below_In in Hin'. apply (Hblob _ Hin' eq_refl). simpl.
      apply proper_prefix_cons. eauto.
    + intros q' Hq'. destruct (Map_get k m) as [c|] eqn:G; simpl.
      * specialize (Hfile (k :: q')). simpl in Hfile. rewrite G in Hfile.
        apply Hfile. apply proper_prefix_cons. eauto.
      * apply node_at_empty_map.
Qed.

(** A directory of the result was there before, or an entry goes
    through it, or a non-blob entry names it. *)
Lemma run_Dir_origin p : forall es n d,
  node_at p (run es n) = Some (Dir d) ->
  is_dir (node_at p n) = true
  \/ exists b q, In (b, q) es /\ (proper_prefix p q \/ (q = p /\ b = false)).
Proof.
  induction p as [|k p' IH]; intros es n d H.
  - simpl in H. injection H as H.
    destruct (run_Dir_inv _ _ _ H) as [[m ->] _]. now left.
  - destruct (run es n) as [|m'] eqn:Hr; [discriminate|].
    destruct (run_Dir_inv _ _ _ Hr) as [[m ->] Hall].
    destruct (run_Dir es m Hall) as (m'' & Hrun & _ & Hget).
    rewrite Hrun in Hr. injection Hr as ->.
    cbn [node_at] in H |- *. rewrite Hget in H.
    destruct (below k es) as [|[b0 rest0] es0] eqn:Eb.
    { left. destruct (Map_get k m); [now rewrite H|discriminate]. }
    rewrite <- Eb in *.
    destruct (IH _ _ _ H) as [Hn|(b & q & Hin & Hq)].
    + destruct (Map_get k m) as [c|] eqn:G; [now left|]. right.
      cbn [or_new_map] in Hn, H. destruct p' as [|k' p'']; [|discriminate].
      simpl in H. injection H as H.
      destruct (run_Dir_inv _ _ _ H) as [_ Hroot].
      assert (Hin0 : In (b0, rest0) (below k es))
        by (rewrite Eb; now left).
      exists b0, (k :: rest0). split; [now apply below_In|].
      destruct rest0 as [|r rest0]; [|left; now exists r, rest0].
      right. split; [reflexivity|].
      rewrite forallb_forall in Hroot. specialize (Hroot _ Hin0).
      unfold root_blob in Hroot. simpl in Hroot. now destruct b0.
    + right. exists b, (k :: q). split; [now apply below_In|].
      destruct Hq as [Hq|[-> ->]]; [left|right; auto].
      apply proper_prefix_cons. eauto.
Qed.

End BuilderFacts.

(** X4.  An entry that occurs a second time in the listing changes
    nothing: the structure is the one built without the repetition. *)
Theorem repeated_entry_changes_nothing :
  forall tree item rest,
    In item tree ->
    generateStructure_map (tree ++ item :: rest)
    = generateStructure_map (tree ++ rest).
Proof.
  intros tree item rest Hin. unfold generateStructure_map.
  rewrite !fold_left_app. cbn [fold_left]. f_equal.
  now apply insertItem_repeated.
Qed.

Lemma repeated_entry_changes_nothing_witness :
  generateStructure_map
    ([blob_entry "a/b"; tree_entry "a"; blob_entry "c"]
       ++ blob_entry "a/b" :: [blob_entry "a/d"])
  = generateStructure_map
      ([blob_entry "a/b"; tree_entry "a"; blob_entry "c"]
         ++ [blob_entry "a/d"]).
Proof.
  apply (repeated_entry_changes_nothing
           [blob_entry "a/b"; tree_entry "a"; blob_entry "c"]
           (blob_entry "a/b") [blob_entry "a/d"]).
  left. reflexivity.
Defined.

(** X5.  The builder invents no file: every file of the structure is at
    the path of a blob of the listing. *)
Theorem every_file_is_a_listed_blob :
  forall tree p,
    lookup_path p (generateStructure_map tree) = Some File ->
    exists item,
      In item tree /\ is_blob item = true /\ parts_of item = p.
Proof.
  intros tree p H. unfold lookup_path in H.
  rewrite generateStructure_map_run in H.
  destruct (run_File_origin _ _ _ H) as [Habs|Hin].
  - now destruct (node_at_empty_map p).
  - apply in_map_iff in Hin as (item & E & Hin).
    injection E as Hb Hp. eauto.
Qed.

Lemma every_file_is_a_listed_blob_witness :
  exists item,
    In item [blob_entry "a/b"; tree_entry "c"]
    /\ is_blob item = true /\ parts_of item = ["a"; "b"].
Proof.
  apply (every_file_is_a_listed_blob [blob_entry "a/b"; tree_entry "c"]).
  reflexivity.
Defined.

(** X6.  Every blob of the listing is a file of the structure, at its
    path, provided no blob of the listing has a path that is a proper
    prefix of that path. *)
Theorem listed_blob_is_a_file :
  forall tree item,
    In item tree ->
    is_blob item = true ->
    (forall other, In other tree -> is_blob other = true ->
                   ~ proper_prefix (parts_of other) (parts_of item)) ->
    lookup_path (parts_of item) (generateStructure_map tree) = Some File.
Proof.
  intros tree item Hin Hb Hblob. unfold lookup_path.
  rewrite generateStructure_map_run. apply run_blob.
  - apply (in_map entry_of) in Hin. unfold entry_of in Hin at 1.
    now rewrite Hb in Hin.
  - intros e' Hin' Hb'. apply in_map_iff in Hin' as (other & <- & Hother).
    now apply Hblob.
  - intros q' _. apply node_at_empty_map.
Qed.

Lemma listed_blob_is_a_file_witness :
  lookup_path ["a"; "b.txt"]
    (generateStructure_map
       [blob_entry "a/b.txt/c"; blob_entry "a/b.txt"; tree_entry "a"])
  = Some File.
Proof.
  apply (listed_blob_is_a_file
           [blob_entry "a/b.txt/c"; blob_entry "a/b.txt"; tree_entry "a"]
           (blob_entry "a/b.txt")).
  - right. left. reflexivity.
  - reflexivity.
  - intros other [<-|[<-|[<-|[]]]] Hb (name & rest & E);
      vm_compute in E; discriminate.
Defined.

(** X7.  The builder invents no directory: every directory of the
    structure, the root apart, is a proper prefix of the path of an
    entry of the listing, or the path of an entry that is not a blob. *)
Theorem every_directory_is_asked_for :
  forall tree p children,
    p <> [] ->
    lookup_path p (generateStructure_map tree) = Some (Dir children) ->
    exists item,
      In item tree
      /\ (proper_prefix p (parts_of item)
          \/ (parts_of item = p /\ is_blob item = false)).
Proof.
  intros tree p children Hp H. unfold lookup_path in H.
  rewrite generateStructure_map_run in H.
  destruct (run_Dir_origin _ _ _ _ H) as [Habs|(b & q & Hin & Hq)].
  - destruct p as [|k p]; [congruence|discriminate].
  - apply in_map_iff in Hin as (item & E & Hin).
    injection E as Hb Hparts. exists item. split; [assumption|].
    rewrite Hb, Hparts. exact Hq.
Qed.

Lemma every_directory_is_asked_for_witness :
  exists item,
    In item [blob_entry "a/b/c"; tree_entry "d"]
    /\ (proper_prefix ["a"; "b"] (parts_of item)
        \/ (parts_of item = ["a"; "b"] /\ is_blob item = false)).
Proof.
  apply (every_directory_is_asked_for
           [blob_entry "a/b/c"; tree_entry "d"] ["a"; "b"] [("c", File)]).
  - discriminate.
  - reflexivity.
Defined.

(** ** The renderer: one line per visible node *)

Section RenderLines.

Lemma renderNode_lines prefix n : forall depth,
  renderNode n (prefix ++ indent depth)
  = concat_all (List.map (line_of prefix) (visibleNode n depth)).
Proof.
  induction n as [|map IH] using Node_nested_ind; intros depth;
    [reflexivity|].
  change (renderNode (Dir map) (prefix ++ indent depth))
    with (buildStructureString map (prefix ++ indent depth)).
  rewrite buildStructureString_blocks. cbn [visibleNode].
  induction map as [|[k v] map IHmap]; [reflexivity|].
  cbn [List.map flat_map]. rewrite map_app, concat_all_app.
  rewrite <- IHmap by (intros k' v' Hin; apply (IH k' v'); now right).
  cbn [concat_all fold_right]. f_equal.
  unfold child_block, visibleEntry. cbn [fst snd].
  destruct (String.eqb k "type"); [reflexivity|].
  cbn [List.map concat_all fold_right]. unfold line_of at 1. cbn [fst snd].
  rewrite !append_assoc. do 5 f_equal.
  destruct v as [|sub]; [reflexivity|].
  unfold buildStructureString.
  change (indent depth ++ indentUnit)%string with (indent (S depth)).
  apply (IH k (Dir sub)). now left.
Qed.

Lemma buildStructureString_lines map prefix :
  buildStructureString map prefix
  = concat_all (List.map (line_of prefix) (visible_nodes map)).
Proof.
  unfold buildStructureString, visible_nodes.
  rewrite <- renderNode_lines. simpl. now rewrite append_empty_r.
Qed.

Lemma line_of_not_empty prefix node : line_of prefix node <> EmptyString.
Proof.
  unfold line_of. intros H.
  apply append_empty_inv in H as [_ H].
  apply append_empty_inv in H as [_ H]. discriminate.
Qed.

Lemma concat_all_empty (l : list string) :
  concat_all l = EmptyString <-> forall x, In x l -> x = EmptyString.
Proof.
  induction l as [|x l IH]; simpl.
  - split; [intros _ x []|reflexivity].
  - split.
    + intros H. apply append_empty_inv in H as [-> H].
      intros y [<-|Hy]; [reflexivity|]. now apply IH.
    + intros H. rewrite (H x) by now left. simpl. apply IH.
      intros y Hy. apply H. now right.
Qed.

Lemma lines_end_with_LF prefix (nodes : list (nat * string)) :
  nodes = []
  \/ exists before,
       concat_all (List.map (line_of prefix) nodes)
       = (before ++ JS.LF)%string.
Proof.
  induction nodes as [|node nodes IH]; [now left|]. right.
  cbn [List.map concat_all fold_right]. fold (concat_all (List.map (line_of prefix) nodes)).
  destruct IH as [->|[before ->]].
  - simpl. rewrite append_empty_r. unfold line_of.
    exists (prefix ++ indent (fst node) ++ branch ++ snd node)%string.
    now rewrite !append_assoc.
  - exists (line_of prefix node ++ before)%string. now rewrite append_assoc.
Qed.

(** X8.  The rendering is the list of the visible nodes in pre-order,
    one line each: the prefix, the indentation unit once per level, the
    same branch mark for every node, the name, a line feed. *)
Theorem rendering_line_by_line :
  forall map prefix,
    buildStructureString map prefix
    = concat_all (List.map (line_of prefix) (visible_nodes map)).
Proof. exact buildStructureString_lines. Qed.

(** X9.  The rendering is the empty string exactly when every key of
    the top map is [type]; the empty map is one case. *)
Theorem rendering_empty_iff :
  forall map prefix,
    buildStructureString map prefix = EmptyString
    <-> forallb (fun key => String.eqb key "type") (Map_keys map) = true.
Proof.
  intros map prefix. rewrite buildStructureString_blocks, concat_all_empty.
  rewrite forallb_forall. unfold Map_keys. split.
  - intros H key Hkey. apply in_map_iff in Hkey as ([k v] & <- & Hin).
    specialize (H (child_block prefix (k, v)) (in_map _ _ _ Hin)).
    unfold child_block in H. cbn [fst snd] in *.
    destruct (String.eqb k "type"); [reflexivity|].
    apply append_empty_inv in H as [_ H]. discriminate.
  - intros H x Hx. apply in_map_iff in Hx as ([k v] & <- & Hin).
    unfold child_block. cbn [fst snd].
    now rewrite (H k (in_map fst _ _ Hin)).
Qed.

(** X10.  In the Markdown download of a rendering the closing fence
    always starts a line. *)
Theorem markdown_fence_starts_a_line :
  forall map,
    exists before,
      markdownContent (buildStructureString map EmptyString)
      = (before ++ JS.LF ++ "```")%string.
Proof.
  intros map. unfold markdownContent. rewrite buildStructureString_lines.
  destruct (lines_end_with_LF EmptyString (visible_nodes map))
    as [->|[before ->]].
  - exists ("# Directory Structure" ++ JS.LF ++ JS.LF ++ "```")%string.
    reflexivity.
  - exists ("# Directory Structure" ++ JS.LF ++ JS.LF ++ "```" ++ JS.LF
            ++ before)%string.
    now rewrite !append_assoc.
Qed.

End RenderLines.

(** ** The filter: twice, nothing found, narrowing, and the views *)

Section FilterFurther.

Variable toLowerCase : string -> string.

Implicit Types (m : DirectoryMap) (term : string).

Lemma keep_key term kv kv' :
  In kv' (keep toLowerCase term kv) -> fst kv' = fst kv.
Proof.
  destruct kv as [k [|sub]]; unfold keep; cbn [fst snd].
  - destruct (name_matches toLowerCase k term); [|intros []].
    now intros [<-|[]].
  - destruct (_ || _); [|intros []]. now intros [<-|[]].
Qed.

Lemma mem_keys_flat_keep term k m :
  mem k (Map_keys (flat_map (keep toLowerCase term) m)) = true ->
  mem k (Map_keys m) = true.
Proof.
  rewrite !mem_In. unfold Map_keys. rewrite !in_map_iff.
  intros (kv' & <- & Hin). apply in_flat_map in Hin as (kv & Hkv & Hin).
  exists kv. split; [|assumption]. symmetry. now apply (keep_key term).
Qed.

Lemma keep_cases term kv :
  keep toLowerCase term kv = []
  \/ exists v', keep toLowerCase term kv = [(fst kv, v')].
Proof.
  destruct kv as [k [|sub]]; unfold keep; cbn [fst snd].
  - destruct (name_matches toLowerCase k term); eauto.
  - destruct (_ || _); eauto.
Qed.

Lemma distinct_flat_keep term m :
  distinct (Map_keys m) = true ->
  distinct (Map_keys (flat_map (keep toLowerCase term) m)) = true.
Proof.
  induction m as [|[k v] m IH]; [reflexivity|]. simpl.
  rewrite andb_true_iff, negb_true_iff. intros [Hk Hd].
  specialize (IH Hd).
  assert (Hk' : mem k (Map_keys (flat_map (keep toLowerCase term) m)) = false).
  { destruct (mem k (Map_keys (flat_map _ m))) eqn:E; [|reflexivity].
    apply mem_keys_flat_keep in E. congruence. }
  destruct (keep_cases term (k, v)) as [->|[v' ->]]; [exact IH|].
  unfold Map_keys in *. simpl. now rewrite Hk', IH.
Qed.

Lemma flat_map_flat_map {A B C : Type} (f : B -> list C) (g : A -> list B)
    (l : list A) :
  flat_map f (flat_map g l) = flat_map (fun x => flat_map f (g x)) l.
Proof.
  induction l as [|x l IH]; [reflexivity|].
  simpl. now rewrite flat_map_app, IH.
Qed.

Lemma flat_map_ext_in {A B : Type} (f g : A -> list B) (l : list A) :
  (forall x, In x l -> f x = g x) -> flat_map f l = flat_map g l.
Proof.
  induction l as [|x l IH]; intros H; [reflexivity|].
  simpl. rewrite (H x) by now left. f_equal. apply IH.
  intros y Hy. apply H. now right.
Qed.

(** Filtering a well-formed map gives a well-formed map that a second
    filtering with the same term leaves as it is. *)
Lemma filterNode_twice term n :
  Node_wf n = true ->
  forall m, n = Dir m ->
    Map_wf (filterStructure toLowerCase m term) = true
    /\ filterStructure toLowerCase (filterStructure toLowerCase m term) term
       = filterStructure toLowerCase m term.
Proof.
  induction n as [|map IH] using Node_nested_ind; [discriminate|].
  intros Hwf m [= <-].
  pose proof (proj1 (Map_wf_iff map) Hwf) as [Hd Hall].
  rewrite filterStructure_flat by assumption.
  pose proof (distinct_flat_keep term map Hd) as Hd'.
  split.
  - apply Map_wf_iff. split; [assumption|].
    intros k v Hin. apply in_flat_map in Hin as ([k0 v0] & Hin0 & Hin).
    destruct v0 as [|sub]; unfold keep in Hin; cbn [fst snd] in Hin.
    + destruct (name_matches toLowerCase k0 term); [|destruct Hin].
      destruct Hin as [[= <- <-]|[]]. reflexivity.
    + destruct (_ || _); [|destruct Hin].
      destruct Hin as [[= <- <-]|[]].
      apply (IH k0 (Dir sub) Hin0 (Hall _ _ Hin0) sub eq_refl).
  - rewrite filterStructure_flat by assumption.
    rewrite flat_map_flat_map. apply flat_map_ext_in.
    intros [k v] Hin. destruct v as [|sub].
    + change (keep toLowerCase term (k, File))
        with (if name_matches toLowerCase k term then [(k, File)] else []).
      destruct (name_matches toLowerCase k term) eqn:M; [|reflexivity].
      simpl. unfold keep. cbn [fst snd]. now rewrite M.
    + destruct (IH k (Dir sub) Hin (Hall _ _ Hin) sub eq_refl) as [_ Hsub].
      change (keep toLowerCase term (k, Dir sub))
        with (if Nat.ltb 0 (Map_size (filterStructure toLowerCase sub term))
                 || name_matches toLowerCase k term
              then [(k, Dir (filterStructure toLowerCase sub term))]
              else []).
      destruct (_ || _) eqn:K; [|reflexivity].
      simpl. unfold keep. cbn [fst snd]. now rewrite Hsub, K.
Qed.

Lemma Map_set_not_empty {V : Type} k (v : V) (l : list (string * V)) :
  Map_set k v l <> [].
Proof.
  destruct l as [|[k0 v0] l]; simpl; [discriminate|].
  destruct (String.eqb k0 k); discriminate.
Qed.

Lemma filter_loop_not_empty term m : forall acc,
  acc <> [] ->
  fold_left (filterEntry toLowerCase (filterNode toLowerCase) term) m acc
  <> [].
Proof.
  induction m as [|[k v] m IH]; intros acc Hacc; [exact Hacc|].
  cbn [fold_left]. apply IH. unfold filterEntry. cbn [fst snd].
  destruct v as [|sub].
  - destruct (name_matches toLowerCase k term);
      [apply Map_set_not_empty|assumption].
  - destruct (_ || _); [apply Map_set_not_empty|assumption].
Qed.

Lemma size_positive_iff {V : Type} (l : list (string * V)) :
  Nat.ltb 0 (Map_size l) = negb (match l with [] => true | _ => false end).
Proof. now destruct l. Qed.

(** The filter returns the empty map exactly when no name of the tree
    contains the term. *)
Lemma filterNode_empty_iff term n :
  forall m, n = Dir m ->
    (filterStructure toLowerCase m term = []
     <-> any_name_matches toLowerCase m term = false).
Proof.
  induction n as [|map IH] using Node_nested_ind; [discriminate|].
  intros m [= <-]. unfold filterStructure, any_name_matches.
  cbn [filterNode anyNameMatches].
  induction map as [|[k v] map IHmap]; [simpl; tauto|].
  cbn [fold_left existsb].
  assert (Hkept : filterEntry toLowerCase (filterNode toLowerCase) term []
                    (k, v) = []
                  <-> matchEntry toLowerCase
                        (anyNameMatches toLowerCase term) term (k, v)
                      = false).
  { unfold filterEntry, matchEntry. cbn [fst snd].
    destruct v as [|sub].
    - destruct (name_matches toLowerCase k term); simpl;
        [split; discriminate|tauto].
    - pose proof (IH k (Dir sub) (or_introl eq_refl) sub eq_refl) as Hsub.
      unfold filterStructure, any_name_matches in Hsub.
      rewrite size_positive_iff.
      destruct (filterNode toLowerCase (Dir sub) term) eqn:F;
        destruct (anyNameMatches toLowerCase term (Dir sub)) eqn:A;
        destruct (name_matches toLowerCase k term); simpl;
        try tauto; try (split; discriminate);
        destruct Hsub as [H1 H2];
        first [specialize (H1 eq_refl); discriminate
              |specialize (H2 eq_refl); discriminate]. }
  destruct (filterEntry toLowerCase (filterNode toLowerCase) term [] (k, v))
    as [|kv0 acc0] eqn:E.
  - rewrite (proj1 Hkept eq_refl). simpl. apply IHmap.
    intros k' v' Hin. apply (IH k' v'). now right.
  - destruct (matchEntry toLowerCase (anyNameMatches toLowerCase term) term
                (k, v)) eqn:M.
    + simpl. split; [|discriminate]. intros H.
      now apply filter_loop_not_empty in H.
    + destruct Hkept as [_ Hkept]. now specialize (Hkept eq_refl).
Qed.

Lemma includes_trans s t u :
  JS.includes s t = true -> JS.includes t u = true -> JS.includes s u = true.
Proof.
  rewrite !includes_spec. intros (a & b & ->) (a' & b' & ->).
  exists (a ++ a')%string, (b' ++ b)%string. now rewrite !append_assoc.
Qed.

End FilterFurther.

Section Subsequences.

Context {A : Type}.

Lemma subseq_refl (l : list A) : subseq l l.
Proof. induction l; constructor; assumption. Qed.

Lemma subseq_nil_l (l : list A) : subseq [] l.
Proof. induction l; constructor; assumption. Qed.

Lemma subseq_app (l1 l1' l2 l2' : list A) :
  subseq l1 l1' -> subseq l2 l2' -> subseq (l1 ++ l2) (l1' ++ l2').
Proof.
  intros H1 H2. induction H1; simpl; [assumption| |]; now constructor.
Qed.

Lemma subseq_map {B : Type} (f : A -> B) (l l' : list A) :
  subseq l l' -> subseq (List.map f l) (List.map f l').
Proof. induction 1; simpl; constructor; assumption. Qed.

End Subsequences.

Section FilteredLines.

Variable toLowerCase : string -> string.

(** The visible nodes of a filtered map are visible nodes of the map,
    in the same order and at the same depths. *)
Lemma visibleNode_filter term n :
  Node_wf n = true ->
  forall m depth, n = Dir m ->
    subseq (visibleNode (Dir (filterStructure toLowerCase m term)) depth)
           (visibleNode (Dir m) depth).
Proof.
  induction n as [|map IH] using Node_nested_ind; [discriminate|].
  intros Hwf m depth [= <-].
  pose proof (proj1 (Map_wf_iff map) Hwf) as [Hd Hall].
  rewrite filterStructure_flat by assumption. cbn [visibleNode].
  rewrite flat_map_flat_map. clear Hd Hwf.
  induction map as [|[k v] map IHmap]; [constructor|].
  cbn [flat_map]. apply subseq_app.
  - destruct v as [|sub].
    + change (keep toLowerCase term (k, File))
        with (if name_matches toLowerCase k term then [(k, File)] else []).
      destruct (name_matches toLowerCase k term); [|apply subseq_nil_l].
      simpl. rewrite app_nil_r. apply subseq_refl.
    + change (keep toLowerCase term (k, Dir sub))
        with (if Nat.ltb 0 (Map_size (filterStructure toLowerCase sub term))
                 || name_matches toLowerCase k term
              then [(k, Dir (filterStructure toLowerCase sub term))]
              else []).
      destruct (_ || _); [|apply subseq_nil_l].
      simpl. rewrite app_nil_r. unfold visibleEntry. cbn [fst snd].
      destruct (String.eqb k "type"); [constructor|].
      apply subseq_keep.
      apply (IH k (Dir sub) (or_introl eq_refl)
               (Hall _ _ (or_introl eq_refl)) sub (S depth) eq_refl).
  - apply IHmap.
    + intros k' v' Hin. apply (IH k' v'). now right.
    + intros k' v' Hin. apply (Hall k' v'). now right.
Qed.

(** X11.  Filtering twice with the same term is filtering once. *)
Theorem filter_twice_is_filter_once :
  forall m term,
    Map_wf m = true ->
    filterStructure toLowerCase (filterStructure toLowerCase m term) term
    = filterStructure toLowerCase m term.
Proof.
  intros m term Hwf.
  exact (proj2 (filterNode_twice toLowerCase term (Dir m) Hwf m eq_refl)).
Qed.

(** X12.  The filter returns the empty map exactly when no node of the
    tree, file or directory at any depth, has a name that contains the
    term; the interactive view then shows a message, and the filtered
    tree otherwise. *)
Theorem nothing_kept_iff_no_name_matches :
  forall m term,
    (filterStructure toLowerCase m term = []
     <-> any_name_matches toLowerCase m term = false)
    /\ interactiveView toLowerCase m term
       = if any_name_matches toLowerCase m term
         then inl (filterStructure toLowerCase m term)
         else inr (if truthy term then noResultsMessage term
                   else noStructureMessage).
Proof.
  intros m term.
  pose proof (filterNode_empty_iff toLowerCase term (Dir m) m eq_refl) as H.
  split; [exact H|]. unfold interactiveView. rewrite size_positive_iff.
  destruct (filterStructure toLowerCase m term) as [|kv l] eqn:F.
  - now rewrite (proj1 H eq_refl).
  - destruct (any_name_matches toLowerCase m term); [reflexivity|].
    destruct H as [_ H]. now specialize (H eq_refl).
Qed.

(** X13.  A longer search term narrows the result: when the old term
    occurs in the new one, case-insensitively, every file kept for the
    new term is kept for the old one. *)
Theorem longer_term_narrows :
  forall m old new p,
    Map_wf m = true ->
    JS.includes (toLowerCase new) (toLowerCase old) = true ->
    lookup_path p (filterStructure toLowerCase m new) = Some File ->
    lookup_path p (filterStructure toLowerCase m old) = Some File.
Proof.
  intros m old new p Hwf Hinc H.
  apply (filterStructure_file toLowerCase new p m Hwf) in H as [Hf Hm].
  apply (filterStructure_file toLowerCase old p m Hwf). split; [exact Hf|].
  unfold name_matches in *. now apply (includes_trans _ (toLowerCase new)).
Qed.

(** X16.  Filtering removes lines of the rendering and never adds,
    reorders or re-indents one: the visible nodes of the filtered
    structure, each with its depth and its name, are visible nodes of
    the whole structure in the same order, and each of the two
    renderings is the line of every visible node, one after the
    other. *)
Theorem filtered_rendering_is_a_selection_of_lines :
  forall m term prefix,
    Map_wf m = true ->
    subseq (visible_nodes (filterStructure toLowerCase m term))
           (visible_nodes m)
    /\ buildStructureString (filterStructure toLowerCase m term) prefix
       = concat_all
           (List.map (line_of prefix)
              (visible_nodes (filterStructure toLowerCase m term)))
    /\ buildStructureString m prefix
       = concat_all (List.map (line_of prefix) (visible_nodes m)).
Proof.
  intros m term prefix Hwf.
  split; [|split; apply buildStructureString_lines].
  exact (visibleNode_filter term (Dir m) Hwf m 0 eq_refl).
Qed.

Variable render : DirectoryMap -> string.

(** X15.  With a search term that no name of the structure contains,
    the ASCII view shows the message that names the term. *)
Theorem asciiView_nothing_found :
  forall m term,
    render [] = EmptyString ->
    term <> EmptyString ->
    any_name_matches toLowerCase m term = false ->
    asciiView toLowerCase render m term = noResultsMessage term.
Proof.
  intros m term Hrender Hterm Hnone. unfold asciiView.
  rewrite (proj2 (filterNode_empty_iff toLowerCase term (Dir m) m eq_refl)
             Hnone).
  rewrite Hrender. simpl. unfold truthy.
  destruct (String.eqb term EmptyString) eqn:E; [|reflexivity].
  apply String.eqb_eq in E. congruence.
Qed.

Hypothesis toLowerCase_empty : toLowerCase EmptyString = EmptyString.

(** X14.  With the empty search term the ASCII view shows the rendering
    of the whole structure, and the invitation to generate one when
    that rendering is empty. *)
Theorem asciiView_without_term :
  forall m,
    Map_wf m = true ->
    asciiView toLowerCase render m EmptyString
    = if truthy (render m) then render m else noStructureMessage.
Proof.
  intros m Hwf. unfold asciiView.
  now rewrite (filterNode_empty_term toLowerCase toLowerCase_empty
                 (Dir m) Hwf m eq_refl).
Qed.

End FilteredLines.

Lemma filter_twice_is_filter_once_witness :
  filterStructure JS.ascii_toLowerCase
    (filterStructure JS.ascii_toLowerCase
       (generateStructure_map
          [blob_entry "src/App.tsx"; blob_entry "src/lib/app.ts";
           blob_entry "README.md"]) "APP") "APP"
  = filterStructure JS.ascii_toLowerCase
      (generateStructure_map
         [blob_entry "src/App.tsx"; blob_entry "src/lib/app.ts";
          blob_entry "README.md"]) "APP".
Proof.
  apply (filter_twice_is_filter_once JS.ascii_toLowerCase
           (generateStructure_map
              [blob_entry "src/App.tsx"; blob_entry "src/lib/app.ts";
               blob_entry "README.md"]) "APP").
  reflexivity.
Defined.

Lemma longer_term_narrows_witness :
  lookup_path ["src"; "App.tsx"]
    (filterStructure JS.ascii_toLowerCase
       (generateStructure_map
          [blob_entry "src/App.tsx"; blob_entry "src/lib/app.ts";
           blob_entry "README.md"]) "app")
  = Some File.
Proof.
  apply (longer_term_narrows JS.ascii_toLowerCase
           (generateStructure_map
              [blob_entry "src/App.tsx"; blob_entry "src/lib/app.ts";
               blob_entry "README.md"])
           "app" "App.T" ["src"; "App.tsx"]); reflexivity.
Defined.

Lemma filtered_rendering_is_a_selection_of_lines_witness :
  subseq
    (visible_nodes
       (filterStructure JS.ascii_toLowerCase
          (generateStructure_map
             [blob_entry "src/App.tsx"; blob_entry "README.md"]) "app"))
    (visible_nodes
       (generateStructure_map
          [blob_entry "src/App.tsx"; blob_entry "README.md"]))
  /\ buildStructureString
       (filterStructure JS.ascii_toLowerCase
          (generateStructure_map
             [blob_entry "src/App.tsx"; blob_entry "README.md"]) "app")
       EmptyString
     = concat_all
         (List.map (line_of EmptyString)
            (visible_nodes
               (filterStructure JS.ascii_toLowerCase
                  (generateStructure_map
                     [blob_entry "src/App.tsx"; blob_entry "README.md"])
                  "app")))
  /\ buildStructureString
       (generateStructure_map
          [blob_entry "src/App.tsx"; blob_entry "README.md"])
       EmptyString
     = concat_all
         (List.map (line_of EmptyString)
            (visible_nodes
               (generateStructure_map
                  [blob_entry "src/App.tsx"; blob_entry "README.md"]))).
Proof.
  apply (filtered_rendering_is_a_selection_of_lines JS.ascii_toLowerCase
           (generateStructure_map
              [blob_entry "src/App.tsx"; blob_entry "README.md"])
           "app" EmptyString).
  reflexivity.
Defined.

Lemma asciiView_nothing_found_witness :
  asciiView JS.ascii_toLowerCase (fun map => buildStructureString map EmptyString)
    (generateStructure_map
       [blob_entry "src/App.tsx"; blob_entry "README.md"]) "xyz"
  = noResultsMessage "xyz".
Proof.
  apply (asciiView_nothing_found JS.ascii_toLowerCase
           (fun map => buildStructureString map EmptyString)
           (generateStructure_map
              [blob_entry "src/App.tsx"; blob_entry "README.md"]) "xyz").
  - reflexivity.
  - discriminate.
  - reflexivity.
Defined.

Lemma asciiView_without_term_witness :
  asciiView JS.ascii_toLowerCase (fun map => buildStructureString map EmptyString)
    (generateStructure_map
       [blob_entry "src/App.tsx"; blob_entry "README.md"]) EmptyString
  = if truthy (buildStructureString
                 (generateStructure_map
                    [blob_entry "src/App.tsx"; blob_entry "README.md"])
                 EmptyString)
    then buildStructureString
           (generateStructure_map
              [blob_entry "src/App.tsx"; blob_entry "README.md"])
           EmptyString
    else noStructureMessage.
Proof.
  apply (asciiView_without_term JS.ascii_toLowerCase
           (fun map => buildStructureString map EmptyString)
           eq_refl
           (generateStructure_map
              [blob_entry "src/App.tsx"; blob_entry "README.md"])).
  reflexivity.
Defined.

Section StoreGrowth.

(** One iteration of the inner loop creates at most one object, and no
    object is ever dropped. *)
Lemma walk_length blob parts : forall s currentLevel,
  length s <= length (Heap.walk blob parts s currentLevel)
  /\ length (Heap.walk blob parts s currentLevel) <= length s + length parts.
Proof.
  induction parts as [|part rest IH]; intros s cur; simpl; [lia|].
  destruct cur as [[|a]|].
  - destruct (IH s (Some Heap.VFile)). split; lia.
  - match goal with
    | |- context [Heap.walk blob rest ?s2 ?c] =>
        destruct (IH s2 c) as [Hlo Hhi];
        assert (length s <= length s2 <= S (length s)) as Hs2
    end.
    { destruct (_ && blob); rewrite ?length_set_at;
        destruct (Map_has part (Heap.deref s a));
        rewrite ?length_set_at; unfold Heap.alloc; simpl;
        rewrite ?length_set_at, ?length_app; simpl; lia. }
    split; lia.
  - destruct (IH s None). split; lia.
Qed.

(** X17.  The builder creates the root map and at most one map for every
    path segment of the listing. *)
Theorem store_has_at_most_one_map_per_segment :
  forall tree,
    1 <= length (Heap.generateStructure_store tree)
    /\ length (Heap.generateStructure_store tree) <= 1 + segments tree.
Proof.
  intros tree. unfold Heap.generateStructure_store, segments.
  assert (forall s : Heap.store,
            length s <= length (fold_left Heap.insertItem tree s)
            /\ length (fold_left Heap.insertItem tree s)
               <= length s
                  + list_sum
                      (List.map (fun item => length (parts_of item)) tree))
    as H.
  { induction tree as [|item tree IH]; intros s; simpl; [lia|].
    destruct (IH (Heap.insertItem s item)) as [Hlo Hhi].
    unfold Heap.insertItem in *.
    destruct (walk_length (is_blob item) (JS.split_slash (path item)) s
                (Some (Heap.VMap Heap.structureMap))) as [H1 H2].
    unfold parts_of in *. split; lia. }
  exact (H [[]]).
Qed.

End StoreGrowth.
